(** * skyorm/postgres: the condition compiler and the statement builder

    A shallow embedding of [postgres.go].  Strings are [string], Go's [int]
    is a [Z] with the 64-bit wrap-around written out where the program does
    arithmetic on the shared placeholder counter, [interface{}] values are a
    tagged union of the dynamic types the program inspects, and a call that
    panics in Go returns [None].  The context argument and the calls of the
    logger are left out: they do not take part in what is computed. *)

From Stdlib Require Import ZArith String Ascii List Bool Lia.
From Stdlib Require Import Numbers.DecimalString Numbers.DecimalPos Numbers.DecimalZ.
From Stdlib Require Import Floats.SpecFloat.
Import ListNotations.

Open Scope Z_scope.
Open Scope list_scope.
Open Scope string_scope.

(** ** Go's [int] *)

Module GoInt.

Definition int_min : Z := - 2 ^ 63.
Definition int_max : Z := 2 ^ 63 - 1.

Definition in_range (z : Z) : Prop := int_min <= z <= int_max.

(** Two's complement wrap-around of a mathematical result. *)
Definition wrap (z : Z) : Z := (z + 2 ^ 63) mod 2 ^ 64 - 2 ^ 63.

Definition add (a b : Z) : Z := wrap (a + b).
Definition sub (a b : Z) : Z := wrap (a - b).

End GoInt.

(** ** The pieces of Go's standard library the program calls *)

Module strconv.

(** [strconv.Itoa]: base 10, a leading minus sign for negative numbers. *)
Definition Itoa (i : Z) : string := NilEmpty.string_of_int (Z.to_int i).

End strconv.

Module strings.

(** [strings.Join(elems, sep)]. *)
Definition Join (elems : list string) (sep : string) : string :=
  String.concat sep elems.

End strings.

Module fmt.

(** The operands the program hands to [fmt.Sprintf]: strings and ints. *)
Inductive arg : Type :=
| S (s : string)
| D (i : Z).

Definition verb_s (a : option arg) : string :=
  match a with
  | Some (S s) => s
  | Some (D i) => "%!s(int=" ++ strconv.Itoa i ++ ")"
  | None => "%!s(MISSING)"
  end.

Definition verb_d (a : option arg) : string :=
  match a with
  | Some (D i) => strconv.Itoa i
  | Some (S s) => "%!d(string=" ++ s ++ ")"
  | None => "%!d(MISSING)"
  end.

Definition extra_one (a : arg) : string :=
  match a with
  | S s => "string=" ++ s
  | D i => "int=" ++ strconv.Itoa i
  end.

Definition extra (a : list arg) : string :=
  match a with
  | [] => ""
  | _ => "%!(EXTRA " ++ strings.Join (map extra_one a) ", " ++ ")"
  end.

(** [fmt.Sprintf] for the verbs that occur in the program's format strings,
    [%s] and [%d] (and the escape [%%]); any other character is copied.
    Operands are consumed left to right; the diagnostics Go prints for a
    missing, mistyped or unused operand are kept. *)
Fixpoint Sprintf (format : string) (a : list arg) : string :=
  match format with
  | EmptyString => extra a
  | String c rest =>
      if Ascii.eqb c "%" then
        match rest with
        | EmptyString => "%!(NOVERB)" ++ extra a
        | String v rest' =>
            if Ascii.eqb v "s" then verb_s (hd_error a) ++ Sprintf rest' (tl a)
            else if Ascii.eqb v "d" then verb_d (hd_error a) ++ Sprintf rest' (tl a)
            else if Ascii.eqb v "%" then String "%" (Sprintf rest' a)
            else String c (String v (Sprintf rest' a))
        end
      else String c (Sprintf rest a)
  end.

End fmt.

(** ** Values of type [interface{}] *)

Inductive intWidth : Type := WInt | W8 | W16 | W32 | W64.
Inductive floatWidth : Type := F32 | F64.

(** A dynamically typed value: its dynamic type and its content. *)
Inductive GoValue : Type :=
| VNil
| VString (s : string)
| VSigned (w : intWidth) (z : Z)        (* int, int8, int16, int32, int64 *)
| VUnsigned (w : intWidth) (z : Z)      (* uint, uint8, uint16, uint32, uint64 *)
| VFloat (w : floatWidth) (f : spec_float)
| VOther (tag : nat).                   (* any other dynamic type *)

(** The zero value of each handled type. *)
Definition float_is_zero (f : spec_float) : bool :=
  match f with
  | S754_zero _ => true
  | _ => false
  end.

Definition isZeroValue (v : GoValue) : bool :=
  match v with
  | VString s => String.eqb s ""
  | VSigned _ z => Z.eqb z 0
  | VUnsigned _ z => Z.eqb z 0
  | VFloat _ f => float_is_zero f
  | _ => false
  end.

Definition handledPkType (v : GoValue) : bool :=
  match v with
  | VString _ | VSigned _ _ | VUnsigned _ _ | VFloat _ _ => true
  | _ => false
  end.

(** ** The interfaces of package skyorm that the provider consumes *)

Module skyorm.

(** [skyorm.Prop]: [Name()] and [IsPk()]. *)
Record Property : Type := mkProp {
  Prop_Name : string;
  Prop_IsPk : bool
}.

(** [skyorm.CondType].  The program names eight kinds; [CondTypeOther]
    stands for every kind it does not name. *)
Inductive CondType : Type :=
| CondTypeAnd | CondTypeOr
| CondTypeEq | CondTypeNeq | CondTypeLt | CondTypeLte | CondTypeGt | CondTypeGte
| CondTypeOther (code : nat).

(** A non-nil [skyorm.Cond]: [Type()], [Prop()], [Val()] and [Children()].
    A child is [None] when the interface value is nil. *)
#[warnings="-register-all"]
Inductive CondNode : Type :=
| mkCond (type : CondType) (prop : Property) (val : GoValue)
         (children : list (option CondNode)).

Definition Cond : Type := option CondNode.

Definition Cond_Type (c : CondNode) : CondType :=
  match c with mkCond t _ _ _ => t end.
Definition Cond_Prop (c : CondNode) : Property :=
  match c with mkCond _ p _ _ => p end.
Definition Cond_Val (c : CondNode) : GoValue :=
  match c with mkCond _ _ v _ => v end.
Definition Cond_Children (c : CondNode) : list Cond :=
  match c with mkCond _ _ _ ch => ch end.

(** [skyorm.Val]: [Prop()] and [Val()]. *)
Record Val : Type := mkVal {
  Val_Prop : Property;
  Val_Val : GoValue
}.

(** [skyorm.Store]: [Name()], [Props()] and [Pk()]. *)
Record Store : Type := mkStore {
  Store_Name : string;
  Store_Props : list Property;
  Store_Pk : Property
}.

(** [skyorm.Model].  [OrmPk] is the content of the cell [OrmPkPointer()]
    points to. *)
Record Model : Type := mkModel {
  OrmStore : Store;
  OrmProps : list Property;
  OrmVals : list GoValue;
  OrmPk : GoValue;
  OrmPkProp : Property
}.

(** [row.Scan(m.OrmPkPointer())] storing [v]. *)
Definition scanPk (m : Model) (v : GoValue) : Model :=
  mkModel (OrmStore m) (OrmProps m) (OrmVals m) v (OrmPkProp m).

(** The constructors of package skyorm used in the examples. *)
Definition noProp : Property := mkProp "" false.
Definition leaf (t : CondType) (p : Property) (v : GoValue) : Cond :=
  Some (mkCond t p v []).
Definition Eq (p : Property) (v : GoValue) : Cond := leaf CondTypeEq p v.
Definition And (children : list Cond) : Cond :=
  Some (mkCond CondTypeAnd noProp VNil children).
Definition Or (children : list Cond) : Cond :=
  Some (mkCond CondTypeOr noProp VNil children).

End skyorm.
Import skyorm.

(** ** postgres.go *)

Definition emptyInterfaceSlice : list GoValue := [].

(** [isPkEmpty].  The type switch selects a case by the dynamic type; the
    type assertion inside each case then names one type, and panics ([None])
    when the dynamic type is another one of the case's list. *)
Definition isPkEmpty (pk : GoValue) : option bool :=
  match pk with
  | VString s => Some (String.eqb s "")
  | VSigned w z =>
      match w with
      | W64 => Some (Z.eqb z 0)
      | _ => None
      end
  | VUnsigned w z =>
      match w with
      | W64 => Some (Z.eqb z 0)
      | _ => None
      end
  | VFloat w f =>
      match w with
      | F64 => Some (float_is_zero f)
      | F32 => None
      end
  | _ => Some false
  end.

Definition newN : Z := 1.

Definition isCombinator (t : CondType) : bool :=
  match t with
  | CondTypeAnd | CondTypeOr => true
  | _ => false
  end.

Definition separator (t : CondType) : string :=
  match t with
  | CondTypeOr => " OR "
  | _ => " AND "
  end.

(** [parseRegularCond]: the counter is advanced first, the text uses the
    advanced counter minus one.  The result carries the new counter. *)
Definition parseRegularCond (c : CondNode) (n : Z) : string * GoValue * Z :=
  let n := GoInt.add n 1 in
  let name := Prop_Name (Cond_Prop c) in
  let pos := strconv.Itoa (GoInt.sub n 1) in
  match Cond_Type c with
  | CondTypeEq => (name ++ " = $" ++ pos, Cond_Val c, n)
  | CondTypeNeq => (name ++ " <> $" ++ pos, Cond_Val c, n)
  | CondTypeLt => (name ++ " < $" ++ pos, Cond_Val c, n)
  | CondTypeLte => (name ++ " <= $" ++ pos, Cond_Val c, n)
  | CondTypeGt => (name ++ " > $" ++ pos, Cond_Val c, n)
  | CondTypeGte => (name ++ " >= $" ++ pos, Cond_Val c, n)
  | _ => ("", VNil, n)
  end.

(** [parseCond] and [parseCondChildren] call each other.  The loop of
    [parseCondChildren] is written first, over the function [self] it calls
    for every child; [parseCondNode] then ties the knot. *)
Section Children.

Variable self : CondNode -> Z -> string * list GoValue * Z.

(** [parseCond(child, n)] with a counter that is not nil. *)
Definition parseChildWith (child : Cond) (n : Z) : string * list GoValue * Z :=
  match child with
  | None => ("", emptyInterfaceSlice, n)
  | Some x => self x n
  end.

(** The loop: the fragment and the values of every child, in order, the
    counter threaded from one child to the next. *)
Fixpoint compileChildrenWith (children : list Cond) (n : Z)
  : list string * list GoValue * Z :=
  match children with
  | [] => ([], [], n)
  | child :: rest =>
      let '(c, v, n1) := parseChildWith child n in
      let '(cl, vl, n2) := compileChildrenWith rest n1 in
      (c :: cl, (v ++ vl)%list, n2)
  end.

Definition parseCondChildrenWith (children : list Cond) (sep : string) (n : Z)
  : string * list GoValue * Z :=
  let '(cl, vl, n') := compileChildrenWith children n in
  ("(" ++ strings.Join cl sep ++ ")", vl, n').

End Children.

(** The body of [parseCond] for a non-nil condition and a non-nil counter,
    in state-passing form: the third component is the counter afterwards. *)
Fixpoint parseCondNode (c : CondNode) (n : Z) {struct c}
  : string * list GoValue * Z :=
  match c with
  | mkCond t _ _ children =>
      if isCombinator t then
        let sep := separator t in
        let '(s, v, n') := parseCondChildrenWith parseCondNode children sep n in
        let sl := [s] in
        let vl := v in
        match vl with
        | [] => ("", vl, n')
        | _ => (strings.Join sl sep, vl, n')
        end
      else
        let '(s, v, n') := parseRegularCond c n in
        (s, [v], n')
  end.

(** [parseCond] called with a counter that is not nil. *)
Definition parseCondSt : Cond -> Z -> string * list GoValue * Z :=
  parseChildWith parseCondNode.

Definition compileChildren : list Cond -> Z -> list string * list GoValue * Z :=
  compileChildrenWith parseCondNode.

Definition parseCondChildren
  : list Cond -> string -> Z -> string * list GoValue * Z :=
  parseCondChildrenWith parseCondNode.

(** [parseCond] as the program declares it: [n] is a pointer, [None] when
    nil, in which case a fresh counter holding 1 is used. *)
Definition parseCond (c : Cond) (n : option Z) : string * list GoValue :=
  match c with
  | None => ("", emptyInterfaceSlice)
  | Some x =>
      let n := match n with Some v => v | None => newN end in
      fst (parseCondNode x n)
  end.

(** [buildWhere]; [queryValues] are the operands of the format [query]. *)
Definition buildWhere (condition : Cond) (query : string) (n : option Z)
    (queryValues : list fmt.arg) : string * list GoValue :=
  let '(condWhere, condValues) := parseCond condition n in
  if String.eqb condWhere "" then
    (fmt.Sprintf query queryValues, condValues)
  else
    (fmt.Sprintf (query ++ " WHERE %s") (queryValues ++ [fmt.S condWhere])%list,
     condValues).

(** The [range] loop of [buildUpdateProps]: [idx] is the index of the next
    element, [i] the variable the loop assigns; it keeps its last value. *)
Fixpoint updatePropsLoop (values : list Val) (idx i : Z)
  : list string * list GoValue * Z :=
  match values with
  | [] => ([], [], i)
  | v :: rest =>
      let '(ls, lv, i') := updatePropsLoop rest (idx + 1) idx in
      ((Prop_Name (Val_Prop v) ++ " = $" ++ strconv.Itoa (idx + 1)) :: ls,
       Val_Val v :: lv, i')
  end.

Definition buildUpdateProps (values : list Val) : Z * string * list GoValue :=
  let '(ls, lv, i) := updatePropsLoop values 0 0 in
  (i + 2, strings.Join ls ", ", lv).

(** [l[c] = x]; an index out of range panics. *)
Fixpoint store {A : Type} (l : list A) (c : nat) (x : A) : option (list A) :=
  match l, c with
  | [], _ => None
  | _ :: t, O => Some (x :: t)
  | h :: t, Datatypes.S c' => option_map (cons h) (store t c' x)
  end.

(** The loop of [buildQueryProperties] over the slice [l] and the index [c]. *)
Fixpoint queryPropertiesLoop (properties : list Property) (isSerial : bool)
    (l : list string) (c : nat) : option (list string) :=
  match properties with
  | [] => Some l
  | p :: rest =>
      if isSerial && Prop_IsPk p then queryPropertiesLoop rest isSerial l c
      else
        match store l c (Prop_Name p) with
        | None => None
        | Some l' => queryPropertiesLoop rest isSerial l' (Datatypes.S c)
        end
  end.

(** [make([]string, n)]: panics when [n] is negative.  The panic for a
    length beyond what can be allocated is not modelled; every count the
    program passes is the length of an existing slice, or one less. *)
Definition makeStrings (n : Z) : option (list string) :=
  if (n <? 0)%Z then None else Some (repeat "" (Z.to_nat n)).

Definition buildQueryProperties (properties : list Property) (isSerial : bool)
  : option string :=
  let ln := Z.of_nat (length properties) in
  let ln := if isSerial then ln - 1 else ln in
  match makeStrings ln with
  | None => None
  | Some l =>
      match queryPropertiesLoop properties isSerial l 0 with
      | None => None
      | Some l' => Some (strings.Join l' ", ")
      end
  end.

Definition buildInsertPlaceholders (n : Z) : option string :=
  match makeStrings n with
  | None => None
  | Some _ =>
      Some (strings.Join
              (map (fun i => "$" ++ strconv.Itoa (Z.of_nat i)) (seq 1 (Z.to_nat n)))
              ", ")
  end.

(** A statement as the engine receives it: the text and the bound values. *)
Definition Statement : Type := (string * list GoValue)%type.

(** The loop of [Put] that drops the primary key's value: [m.OrmProps()[i]]
    panics when there are more values than properties. *)
Fixpoint serialValues (props : list Property) (vals : list GoValue)
  : option (list GoValue) :=
  match vals with
  | [] => Some []
  | v :: vals' =>
      match props with
      | [] => None
      | p :: props' =>
          match serialValues props' vals' with
          | None => None
          | Some r => Some (if Prop_IsPk p then r else v :: r)
          end
      end
  end.

(** What one round of [Put]'s loop hands to [QueryRowContext]. *)
Definition PutStatement (m : Model) : option Statement :=
  match isPkEmpty (OrmPk m) with
  | None => None
  | Some isSerial =>
      let vl := Z.of_nat (length (OrmVals m)) in
      let vl := if isSerial then vl - 1 else vl in
      match buildQueryProperties (OrmProps m) isSerial,
            buildInsertPlaceholders vl with
      | Some cols, Some phs =>
          let query :=
            fmt.Sprintf "INSERT INTO %s (%s) VALUES (%s) RETURNING %s"
              [fmt.S (Store_Name (OrmStore m)); fmt.S cols; fmt.S phs;
               fmt.S (Prop_Name (OrmPkProp m))] in
          if isSerial then
            match serialValues (OrmProps m) (OrmVals m) with
            | None => None
            | Some values => Some (query, values)
            end
          else Some (query, OrmVals m)
      | _, _ => None
      end
  end.

(** What [Populate] hands to [QueryRowContext]. *)
Definition PopulateStatement (model : Model) (pk : GoValue) : option Statement :=
  match buildQueryProperties (OrmProps model) false with
  | None => None
  | Some cols =>
      Some (buildWhere (Eq (OrmPkProp model) pk) "SELECT %s FROM %s" None
              [fmt.S cols; fmt.S (Store_Name (OrmStore model))])
  end.

(** What [Find] hands to [QueryContext]. *)
Definition FindStatement (store : Store) (condition : Cond) (limit offset : Z)
  : option Statement :=
  match buildQueryProperties (Store_Props store) false with
  | None => None
  | Some cols =>
      let '(query, args) :=
        buildWhere condition "SELECT %s FROM %s" None
          [fmt.S cols; fmt.S (Store_Name store)] in
      let query :=
        if (0 <? limit)%Z then
          query ++ fmt.Sprintf " LIMIT %d OFFSET %d" [fmt.D limit; fmt.D offset]
        else query in
      Some (query, args)
  end.

(** What [Update] hands to [ExecContext]. *)
Definition UpdateStatement (store : Store) (condition : Cond)
    (values : list Val) : Statement :=
  let '(cursor, updateString, updateValues) := buildUpdateProps values in
  let '(query, args) :=
    buildWhere condition "UPDATE %s SET %s" (Some cursor)
      [fmt.S (Store_Name store); fmt.S updateString] in
  (query, (updateValues ++ args)%list).

(** What [Delete] hands to [ExecContext]. *)
Definition DeleteStatement (store : Store) (condition : Cond) : Statement :=
  buildWhere condition "DELETE FROM %s" None [fmt.S (Store_Name store)].

(** What [Count] hands to [QueryRowContext]. *)
Definition CountStatement (store : Store) (condition : Cond) : Statement :=
  buildWhere condition "SELECT COUNT(%s) AS cnt FROM %s" None
    [fmt.S (Prop_Name (Store_Pk store)); fmt.S (Store_Name store)].

(** ** The engine, and [Put] against it *)

Section Engine.

Variable error : Type.
Variable DB : Type.

(** A [*sql.Row]: [Err()], and what [Scan] of its single column does, an
    error or the value it stores in the destination. *)
Record Row : Type := mkRow {
  Row_Err : option error;
  Row_Scan : error + GoValue
}.

Variable QueryRowContext : DB -> string -> list GoValue -> DB * Row.

Inductive outcome : Type :=
| Returned (err : option error)
| Panicked.

Record PutResult : Type := mkPutResult {
  put_db : DB;
  put_models : list Model;
  put_issued : list Statement;
  put_outcome : outcome
}.

(** [Put]: the models as the call leaves them, the statements issued, in
    order, and how the call ends. *)
Fixpoint Put (db : DB) (models : list Model) : PutResult :=
  match models with
  | [] => mkPutResult db [] [] (Returned None)
  | m :: rest =>
      match PutStatement m with
      | None => mkPutResult db models [] Panicked
      | Some (query, values) =>
          let '(db1, row) := QueryRowContext db query values in
          match Row_Err row with
          | Some e => mkPutResult db1 models [(query, values)] (Returned (Some e))
          | None =>
              match Row_Scan row with
              | inl e =>
                  mkPutResult db1 models [(query, values)] (Returned (Some e))
              | inr v =>
                  let r := Put db1 rest in
                  mkPutResult (put_db r) (scanPk m v :: put_models r)
                    ((query, values) :: put_issued r) (put_outcome r)
              end
          end
      end
  end.

End Engine.

Arguments mkRow {error} _ _.
Arguments Row_Err {error} _.
Arguments Row_Scan {error} _.
Arguments Returned {error} _.
Arguments Panicked {error}.
Arguments mkPutResult {error DB} _ _ _ _.
Arguments put_db {error DB} _.
Arguments put_models {error DB} _.
Arguments put_issued {error DB} _.
Arguments put_outcome {error DB} _.
Arguments Put {error DB} _ _ _.

(** [Inserted Q db ms sts ms' db']: from [db] on, the engine answers the
    statement of each record of [ms], one after another, with a row and a
    key; [sts] are these statements, [ms'] the records with these keys
    stored, [db'] the engine afterwards. *)
Inductive Inserted {error DB : Type}
    (Q : DB -> string -> list GoValue -> DB * Row error)
  : DB -> list Model -> list Statement -> list Model -> DB -> Prop :=
| Inserted_nil (db : DB) : Inserted Q db [] [] [] db
| Inserted_cons (db db1 db2 : DB) (m : Model) (query : string)
    (values : list GoValue) (key : GoValue) (ms ms' : list Model)
    (sts : list Statement) :
    PutStatement m = Some (query, values) ->
    Q db query values = (db1, mkRow None (inr key)) ->
    Inserted Q db1 ms sts ms' db2 ->
    Inserted Q db (m :: ms) ((query, values) :: sts) (scanPk m key :: ms') db2.

(** ** [Find] against the engine *)

Section Query.

Variable error : Type.
Variable DB : Type.

(** A row of a result set, as [res.Next()] delivers them one by one. *)
Variable RowData : Type.

Variable QueryContext :
  DB -> string -> list GoValue -> DB * (error + list RowData).

(** [store.Model()], the fresh record of a store, and
    [res.Scan(m.OrmPointers()...)], which fails or fills the record. *)
Variable Store_Model : Store -> Model.
Variable Scan : RowData -> Model -> error + Model.

(** The loop of [Find] over the rows; [l] is the slice built so far. *)
Fixpoint scanRows (store : Store) (rows : list RowData) (l : list Model)
  : error + list Model :=
  match rows with
  | [] => inr l
  | row :: rest =>
      let m := Store_Model store in
      match Scan row m with
      | inl err => inl err
      | inr m' => scanRows store rest (l ++ [m'])%list
      end
  end.

Inductive FindResult : Type :=
| FindReturned (r : error + list Model)
| FindPanicked.

(** [Find]: either the records or the error it returns. *)
Definition Find (db : DB) (store : Store) (condition : Cond)
    (limit offset : Z) : DB * FindResult :=
  match FindStatement store condition limit offset with
  | None => (db, FindPanicked)
  | Some (query, args) =>
      let '(db1, res) := QueryContext db query args in
      match res with
      | inl err => (db1, FindReturned (inl err))
      | inr rows => (db1, FindReturned (scanRows store rows []))
      end
  end.

End Query.

Arguments FindReturned {error} _.
Arguments FindPanicked {error}.
Arguments scanRows {error RowData} _ _ _ _ _.
Arguments Find {error DB RowData} _ _ _ _ _ _ _ _.

(** ** Notions the properties are stated with *)

(** The six comparison kinds [parseRegularCond] has a case for. *)
Definition supported (t : CondType) : bool :=
  match t with
  | CondTypeEq | CondTypeNeq | CondTypeLt | CondTypeLte | CondTypeGt
  | CondTypeGte => true
  | _ => false
  end.

(** The operator each of them is written with. *)
Definition symbol (t : CondType) : string :=
  match t with
  | CondTypeEq => "="
  | CondTypeNeq => "<>"
  | CondTypeLt => "<"
  | CondTypeLte => "<="
  | CondTypeGt => ">"
  | CondTypeGte => ">="
  | _ => ""
  end.

(** The leaf comparisons of a tree, left to right, depth first.  A node is a
    combinator when its kind is AND or OR, a leaf otherwise. *)
Fixpoint leaves (c : CondNode) : list CondNode :=
  match c with
  | mkCond t _ _ children =>
      if isCombinator t then
        flat_map (fun child => match child with
                               | None => []
                               | Some x => leaves x
                               end) children
      else [c]
  end.

Definition leavesOf (c : Cond) : list CondNode :=
  match c with
  | None => []
  | Some x => leaves x
  end.

Definition leafCount (c : Cond) : Z := Z.of_nat (length (leavesOf c)).

Definition allSupported (c : Cond) : Prop :=
  Forall (fun l => supported (Cond_Type l) = true) (leavesOf c).

(** The text and the value a leaf stands for at placeholder position [pos]. *)
Definition leafText (l : CondNode) (pos : Z) : string :=
  Prop_Name (Cond_Prop l) ++ " " ++ symbol (Cond_Type l) ++ " $"
  ++ strconv.Itoa pos.

Definition leafFragment (l : CondNode) (pos : Z) : string :=
  if supported (Cond_Type l) then leafText l pos else "".

Definition leafValue (l : CondNode) : GoValue :=
  if supported (Cond_Type l) then Cond_Val l else VNil.

(** Consecutive positions from [n] on, one per leaf. *)
Fixpoint number (ls : list CondNode) (n : Z) : list (CondNode * Z) :=
  match ls with
  | [] => []
  | l :: rest => (l, n) :: number rest (n + 1)
  end.

Definition texts (ls : list CondNode) (n : Z) : list string :=
  map (fun lp => leafFragment (fst lp) (snd lp)) (number ls n).

(** The positions of the supported leaves among them. *)
Definition supportedPositions (ls : list CondNode) (n : Z) : list Z :=
  map snd (filter (fun lp => supported (Cond_Type (fst lp))) (number ls n)).

(** The integers [n], [n+1], ..., [n+k-1]. *)
Definition positions (n : Z) (k : nat) : list Z :=
  map (fun i => n + Z.of_nat i) (seq 0 k).

(** The text between two leaves: parentheses and separators only. *)
Definition glueChar (c : ascii) : bool :=
  existsb (Ascii.eqb c) (list_ascii_of_string "() ANDOR").

Fixpoint glue (s : string) : bool :=
  match s with
  | EmptyString => true
  | String c rest => glueChar c && glue rest
  end.

(** [Weave ts s]: the string [s] is the strings [ts], in this order, with
    glue before, between and after them. *)
Inductive Weave : list string -> string -> Prop :=
| Weave_end (g : string) :
    glue g = true -> Weave [] g
| Weave_text (g t : string) (ts : list string) (s : string) :
    glue g = true -> Weave ts s -> Weave (t :: ts) (g ++ t ++ s).

(** The placeholders of a text, in the order they occur: every [$]
    followed by decimal digits. *)
Definition isDigit (c : ascii) : bool :=
  existsb (Ascii.eqb c) (list_ascii_of_string "0123456789").

Fixpoint digitsOf (s : string) : string :=
  match s with
  | EmptyString => EmptyString
  | String c rest => if isDigit c then String c (digitsOf rest) else EmptyString
  end.

Definition numberOf (digits : string) : Z :=
  match NilEmpty.uint_of_string digits with
  | Some d => Z.of_uint d
  | None => 0
  end.

Fixpoint placeholders (s : string) : list Z :=
  match s with
  | EmptyString => []
  | String c rest =>
      if Ascii.eqb c "$" then
        match digitsOf rest with
        | EmptyString => placeholders rest
        | ds => numberOf ds :: placeholders rest
        end
      else placeholders rest
  end.

(** The text does not begin with a digit. *)
Definition noDigitStart (s : string) : bool :=
  match s with
  | EmptyString => true
  | String c _ => negb (isDigit c)
  end.

Fixpoint hasChar (c : ascii) (s : string) : bool :=
  match s with
  | EmptyString => false
  | String c' rest => Ascii.eqb c' c || hasChar c rest
  end.

(** No property name of a leaf contains a [$]. *)
Definition namesClean (ls : list CondNode) : Prop :=
  Forall (fun l => hasChar "$" (Prop_Name (Cond_Prop l)) = false) ls.

Definition cleanNames (c : Cond) : Prop := namesClean (leavesOf c).

(** The combinator fragment as the specification words it: only the child
    fragments that are not empty are joined, the result is parenthesised. *)
Definition nonEmpty (s : string) : bool := negb (String.eqb s "").

Definition joinNonEmpty (cl : list string) (sep : string) : string :=
  "(" ++ strings.Join (filter nonEmpty cl) sep ++ ")".

(** The text of the placeholder at position [i], and of the assignment of
    an UPDATE at position [i]. *)
Definition placeholder (i : nat) : string := "$" ++ strconv.Itoa (Z.of_nat i).

Fixpoint assignments (values : list Val) (first : Z) : list string :=
  match values with
  | [] => []
  | v :: rest =>
      (Prop_Name (Val_Prop v) ++ " = $" ++ strconv.Itoa first)
        :: assignments rest (first + 1)
  end.

Definition nonPk (p : Property) : bool := negb (Prop_IsPk p).

Definition pkCount (ps : list Property) : nat := length (filter Prop_IsPk ps).

(** A record as package skyorm hands it over: a value for each property,
    one property flagged as the primary key, which is the one [OrmPkProp]
    returns and whose value is the one [OrmPk] returns. *)
Record wellFormed (m : Model) : Prop := mkWellFormed {
  wf_vals : length (OrmVals m) = length (OrmProps m);
  wf_one_pk : pkCount (OrmProps m) = 1%nat;
  wf_pk : forall i p,
    nth_error (OrmProps m) i = Some p -> Prop_IsPk p = true ->
    p = OrmPkProp m /\ nth_error (OrmVals m) i = Some (OrmPk m)
}.

(** The statement of [Find] before pagination. *)
Definition FindBase (store : Store) (condition : Cond) : Statement :=
  buildWhere condition "SELECT %s FROM %s" None
    [fmt.S (strings.Join (map Prop_Name (Store_Props store)) ", ");
     fmt.S (Store_Name store)].

(** [contains s sub]: [sub] occurs in [s]. *)
Fixpoint contains (s sub : string) : bool :=
  String.prefix sub s
  || match s with
     | EmptyString => false
     | String _ rest => contains rest sub
     end.

(** The INSERT statement for the columns [cols] and [k] bound values. *)
Definition insertSQL (m : Model) (cols : list Property) (k : nat) : string :=
  "INSERT INTO " ++ Store_Name (OrmStore m)
  ++ " (" ++ strings.Join (map Prop_Name cols) ", "
  ++ ") VALUES (" ++ strings.Join (map placeholder (seq 1 k)) ", "
  ++ ") RETURNING " ++ Prop_Name (OrmPkProp m).

(** The values of the properties that are not the primary key, in order. *)
Definition nonPkValues (m : Model) : list GoValue :=
  map snd (filter (fun pv => nonPk (fst pv)) (combine (OrmProps m) (OrmVals m))).

(** What a tree compiles to at a counter [n] from which its leaves can be
    numbered without leaving the range of [int]. *)
Definition compilesAt (ls : list CondNode) (n : Z)
    (r : string * list GoValue * Z) (frag : string) : Prop :=
  r = (frag, map leafValue ls, n + Z.of_nat (length ls))
  /\ Weave (texts ls n) frag.

Definition nodeCompiles (c : CondNode) : Prop :=
  forall n, GoInt.in_range n ->
    n + Z.of_nat (length (leaves c)) <= GoInt.int_max ->
    compilesAt (leaves c) n (parseCondNode c n) (fst (fst (parseCondNode c n))).

(** The placeholders read off the fragment of a tree, whatever follows it. *)
Definition nodeReadsBack (c : CondNode) : Prop :=
  forall n rest,
    namesClean (leaves c) -> 0 <= n ->
    n + Z.of_nat (length (leaves c)) <= GoInt.int_max ->
    noDigitStart rest = true ->
    placeholders (fst (fst (parseCondNode c n)) ++ rest) =
    (supportedPositions (leaves c) n ++ placeholders rest)%list.

(** The properties the loop of [buildQueryProperties] writes down. *)
Definition kept (isSerial : bool) (p : Property) : bool :=
  negb (isSerial && Prop_IsPk p).

(** A statement binds as many values as its text has placeholders, and the
    placeholders are 1, 2, ... in the order they occur. *)
Definition aligned (st : Statement) : Prop :=
  placeholders (fst st) = positions 1 (length (snd st)).

(** The WHERE clause [buildWhere] appends for the fragment [w]. *)
Definition whereClause (w : string) : string :=
  if String.eqb w "" then "" else " WHERE " ++ w.

Definition noDollar (s : string) : Prop := hasChar "$" s = false.

(** The names a statement for [store] is written with have no [$]. *)
Definition storeClean (store : Store) : Prop :=
  noDollar (Store_Name store)
  /\ noDollar (Prop_Name (Store_Pk store))
  /\ Forall (fun p => noDollar (Prop_Name p)) (Store_Props store).

Fixpoint countChar (c : ascii) (s : string) : nat :=
  match s with
  | EmptyString => O
  | String c' rest =>
      ((if Ascii.eqb c' c then 1 else 0) + countChar c rest)%nat
  end.

(** As many opening as closing parentheses. *)
Definition balanced (s : string) : Prop :=
  countChar "(" s = countChar ")" s.

Definition parenFree (s : string) : Prop :=
  countChar "(" s = O /\ countChar ")" s = O.

Definition nodeBalanced (c : CondNode) : Prop :=
  forall n,
    Forall (fun l => parenFree (Prop_Name (Cond_Prop l))) (leaves c) ->
    balanced (fst (fst (parseCondNode c n))).

Definition nodeValues (c : CondNode) : Prop :=
  forall n, snd (fst (parseCondNode c n)) = map leafValue (leaves c).

(** ** Induction over condition trees *)

Section CondNode_induction.

Variable P : CondNode -> Prop.

Definition onChild (child : Cond) : Prop :=
  match child with
  | None => True
  | Some x => P x
  end.

Hypothesis node_case : forall t p v children,
  Forall onChild children -> P (mkCond t p v children).

Fixpoint CondNode_nested_ind (c : CondNode) : P c :=
  match c with
  | mkCond t p v children =>
      node_case t p v children
        ((fix all (l : list (option CondNode)) : Forall onChild l :=
            match l with
            | [] => Forall_nil onChild
            | child :: rest =>
                @Forall_cons _ onChild child rest
                  (match child return onChild child with
                   | None => I
                   | Some x => CondNode_nested_ind x
                   end)
                  (all rest)
            end) children)
  end.

End CondNode_induction.

(** ** Example data *)

Definition age : Property := mkProp "age" false.
Definition city : Property := mkProp "city" false.
Definition name : Property := mkProp "name" false.
Definition id : Property := mkProp "id" true.
Definition users : Store := mkStore "users" [id; age; city] id.

Definition exampleCond : Cond :=
  And [Eq age (VSigned WInt 30);
       Or [Eq city (VString "NY"); Eq city (VString "LA")]].

Definition newUser : Model :=
  mkModel users [id; age; city]
    [VSigned W64 0; VSigned WInt 30; VString "NY"] (VSigned W64 0) id.

Definition user7 : Model :=
  mkModel users [id; age; city]
    [VSigned W64 7; VSigned WInt 30; VString "NY"] (VSigned W64 7) id.

(** An engine that answers every statement with the key 41. *)
Definition engine41 (db : unit) (query : string) (values : list GoValue)
  : unit * Row string :=
  (db, mkRow None (inr (VSigned W64 41))).

(** An engine that refuses every statement binding three values and
    answers the others with the key 41. *)
Definition pickyEngine (db : unit) (query : string) (values : list GoValue)
  : unit * Row string :=
  if Nat.eqb (length values) 3
  then (db, mkRow (Some "duplicate key") (inl "no row"))
  else (db, mkRow None (inr (VSigned W64 41))).

Definition unsupportedLeaf : Cond := leaf (CondTypeOther 0) age (VString "x").

(** An engine whose result set is the list of rows it is asked about, a
    row being the key to store, and a scan that fails on the key 0. *)
Definition rowsEngine (rows : list Z) (db : unit) (query : string)
    (values : list GoValue) : unit * (string + list Z) :=
  (db, inr rows).

Definition freshUser (store : Store) : Model :=
  mkModel store (Store_Props store) [] VNil (Store_Pk store).

Definition scanKey (row : Z) (m : Model) : string + Model :=
  if Z.eqb row 0 then inl "scan" else inr (scanPk m (VSigned W64 row)).

Definition intKeyUser : Model :=
  mkModel users [id; age; city]
    [VSigned WInt 0; VSigned WInt 30; VString "NY"] (VSigned WInt 0) id.

(** * Proofs *)

(** ** Go's [int] *)

Lemma wrap_in_range (z : Z) : GoInt.in_range z -> GoInt.wrap z = z.
Proof.
  unfold GoInt.in_range, GoInt.wrap, GoInt.int_min, GoInt.int_max.
  intros H. rewrite Z.mod_small; lia.
Qed.

Lemma add_one (n : Z) :
  GoInt.in_range n -> n < GoInt.int_max -> GoInt.add n 1 = n + 1.
Proof.
  intros H Hlt. unfold GoInt.add. apply wrap_in_range.
  unfold GoInt.in_range, GoInt.int_min, GoInt.int_max in *. lia.
Qed.

(** The position [parseRegularCond] prints is the counter it was given, also
    when the increment wraps around. *)
Lemma sub_add_one (n : Z) :
  GoInt.in_range n -> GoInt.sub (GoInt.add n 1) 1 = n.
Proof.
  unfold GoInt.sub, GoInt.add, GoInt.wrap, GoInt.in_range, GoInt.int_min,
    GoInt.int_max.
  intros H.
  destruct (Z.eq_dec n (2 ^ 63 - 1)) as [-> | Hne].
  - reflexivity.
  - rewrite (Z.mod_small (n + 1 + 2 ^ 63)) by lia.
    replace (n + 1 + 2 ^ 63 - 2 ^ 63 - 1 + 2 ^ 63) with (n + 2 ^ 63) by lia.
    rewrite Z.mod_small; lia.
Qed.

(** ** Strings *)

Lemma append_assoc (a b c : string) : (a ++ b) ++ c = a ++ b ++ c.
Proof. induction a as [| ch a IH]; simpl; [reflexivity | now rewrite IH]. Qed.

Lemma append_nil_r (a : string) : a ++ "" = a.
Proof. induction a as [| ch a IH]; simpl; [reflexivity | now rewrite IH]. Qed.


(** ** Unfolding the compiler *)

Lemma parseCondNode_eq (t : CondType) (p : Property) (v : GoValue)
    (children : list Cond) (n : Z) :
  parseCondNode (mkCond t p v children) n =
  if isCombinator t then
    let '(s, vl, n') := parseCondChildren children (separator t) n in
    match vl with
    | [] => ("", [], n')
    | _ => (s, vl, n')
    end
  else
    let '(s, v', n') := parseRegularCond (mkCond t p v children) n in
    (s, [v'], n').
Proof.
  simpl. destruct (isCombinator t); [| reflexivity].
  fold parseCondChildren.
  destruct (parseCondChildren children (separator t) n) as [[s vl] n'].
  destruct vl; reflexivity.
Qed.

Lemma compileChildren_cons (child : Cond) (rest : list Cond) (n : Z) :
  compileChildren (child :: rest) n =
  let '(c, v, n1) := parseCondSt child n in
  let '(cl, vl, n2) := compileChildren rest n1 in
  (c :: cl, (v ++ vl)%list, n2).
Proof. reflexivity. Qed.

Lemma leaves_eq (t : CondType) (p : Property) (v : GoValue)
    (children : list Cond) :
  leaves (mkCond t p v children) =
  if isCombinator t then flat_map leavesOf children
  else [mkCond t p v children].
Proof. reflexivity. Qed.

Lemma parseCondSt_None (n : Z) : parseCondSt None n = ("", [], n).
Proof. reflexivity. Qed.

Lemma parseCondSt_Some (x : CondNode) (n : Z) :
  parseCondSt (Some x) n = parseCondNode x n.
Proof. reflexivity. Qed.

Lemma parseCond_St (c : Cond) (n : option Z) :
  parseCond c n =
  fst (parseCondSt c (match n with Some v => v | None => newN end)).
Proof. destruct c; reflexivity. Qed.

(** A leaf: the text carries the counter it was compiled at, the counter
    moves on by one. *)
Lemma parseRegularCond_eq (c : CondNode) (n : Z) :
  GoInt.in_range n ->
  parseRegularCond c n = (leafFragment c n, leafValue c, GoInt.add n 1).
Proof.
  intros Hn. unfold parseRegularCond, leafFragment, leafValue, leafText.
  rewrite (sub_add_one n Hn).
  destruct (Cond_Type c); reflexivity.
Qed.

(** ** Numbering the leaves *)

Lemma number_app (l1 l2 : list CondNode) (n : Z) :
  number (l1 ++ l2)%list n =
  (number l1 n ++ number l2 (n + Z.of_nat (length l1)))%list.
Proof.
  revert n. induction l1 as [| l l1 IH]; intros n; simpl number.
  - simpl. now rewrite Z.add_0_r.
  - rewrite IH. simpl. do 3 f_equal. lia.
Qed.

Lemma texts_app (l1 l2 : list CondNode) (n : Z) :
  texts (l1 ++ l2)%list n =
  (texts l1 n ++ texts l2 (n + Z.of_nat (length l1)))%list.
Proof. unfold texts. now rewrite number_app, map_app. Qed.

Lemma supportedPositions_app (l1 l2 : list CondNode) (n : Z) :
  supportedPositions (l1 ++ l2)%list n =
  (supportedPositions l1 n
   ++ supportedPositions l2 (n + Z.of_nat (length l1)))%list.
Proof. unfold supportedPositions. now rewrite number_app, filter_app, map_app. Qed.

Lemma positions_cons (n : Z) (k : nat) :
  positions n (Datatypes.S k) = n :: positions (n + 1) k.
Proof.
  unfold positions. simpl. rewrite Z.add_0_r. f_equal.
  rewrite <- seq_shift, map_map. apply map_ext. intros i. lia.
Qed.

Lemma supportedPositions_all (ls : list CondNode) (n : Z) :
  Forall (fun l => supported (Cond_Type l) = true) ls ->
  supportedPositions ls n = positions n (length ls).
Proof.
  intros H. revert n. induction H as [| l ls Hl _ IH]; intros n.
  - reflexivity.
  - simpl length. rewrite positions_cons, <- IH.
    unfold supportedPositions. simpl. now rewrite Hl.
Qed.

Lemma leafValue_all (ls : list CondNode) :
  Forall (fun l => supported (Cond_Type l) = true) ls ->
  map leafValue ls = map Cond_Val ls.
Proof.
  induction 1 as [| l ls Hl _ IH]; simpl; [reflexivity |].
  unfold leafValue at 1. now rewrite Hl, IH.
Qed.

(** ** Weaving *)

Lemma glue_app (a b : string) : glue (a ++ b) = glue a && glue b.
Proof.
  induction a as [| c a IH]; simpl; [reflexivity |].
  now rewrite IH, andb_assoc.
Qed.

Lemma Weave_glue_l (g : string) (ts : list string) (s : string) :
  glue g = true -> Weave ts s -> Weave ts (g ++ s).
Proof.
  intros Hg H. destruct H as [g' Hg' | g' t ts s Hg' H].
  - apply Weave_end. now rewrite glue_app, Hg, Hg'.
  - rewrite <- append_assoc. apply Weave_text; [| exact H].
    now rewrite glue_app, Hg, Hg'.
Qed.

Lemma Weave_app (ts1 ts2 : list string) (s1 s2 : string) :
  Weave ts1 s1 -> Weave ts2 s2 -> Weave (ts1 ++ ts2)%list (s1 ++ s2).
Proof.
  intros H1 H2. induction H1 as [g Hg | g t ts s Hg H1 IH].
  - simpl. now apply Weave_glue_l.
  - simpl. rewrite !append_assoc. now apply Weave_text.
Qed.

Lemma Weave_one (t : string) : Weave [t] t.
Proof.
  replace t with ("" ++ t ++ "") at 2 by (simpl; apply append_nil_r).
  apply Weave_text; [reflexivity | now apply Weave_end].
Qed.

Lemma glue_separator (t : CondType) : glue (separator t) = true.
Proof. destruct t; reflexivity. Qed.

(** ** The compiler against the numbering of the leaves *)

Lemma length_flat_cons (child : Cond) (rest : list Cond) :
  Z.of_nat (length (flat_map leavesOf (child :: rest))) =
  Z.of_nat (length (leavesOf child))
  + Z.of_nat (length (flat_map leavesOf rest)).
Proof. simpl. rewrite length_app. lia. Qed.

Lemma in_range_advance (n k : Z) :
  GoInt.in_range n -> 0 <= k -> n + k <= GoInt.int_max -> GoInt.in_range (n + k).
Proof. unfold GoInt.in_range. lia. Qed.

Lemma children_compile (sep : string) (children : list Cond) :
  glue sep = true ->
  Forall (onChild nodeCompiles) children ->
  forall n, GoInt.in_range n ->
    n + Z.of_nat (length (flat_map leavesOf children)) <= GoInt.int_max ->
    exists cl,
      compileChildren children n =
        (cl, map leafValue (flat_map leavesOf children),
         n + Z.of_nat (length (flat_map leavesOf children)))
      /\ Weave (texts (flat_map leavesOf children) n) (strings.Join cl sep).
Proof.
  intros Hsep H. induction H as [| child rest Hc _ IH]; intros n Hn Hb.
  - exists []. split; [simpl; now rewrite Z.add_0_r | now apply Weave_end].
  - rewrite length_flat_cons in Hb.
    set (k := Z.of_nat (length (leavesOf child))) in *.
    assert (Hk : 0 <= k) by (unfold k; lia).
    assert (Hchild : exists c,
               parseCondSt child n = (c, map leafValue (leavesOf child), n + k)
               /\ Weave (texts (leavesOf child) n) c).
    { destruct child as [x |].
      - assert (Ek : k = Z.of_nat (length (leaves x))) by reflexivity.
        destruct (Hc n Hn) as [E W]; [lia |].
        exists (fst (fst (parseCondNode x n))). rewrite Ek. now split.
      - exists "". split; [simpl; unfold k; simpl; now rewrite Z.add_0_r |].
        now apply Weave_end. }
    destruct Hchild as (c & Ec & Wc).
    destruct (IH (n + k)) as (cl & Ecl & Wcl).
    { apply in_range_advance; [exact Hn | exact Hk | lia]. }
    { lia. }
    exists (c :: cl). split.
    + rewrite compileChildren_cons, Ec, Ecl. simpl flat_map.
      rewrite map_app, length_app, Nat2Z.inj_add. fold k.
      now rewrite Z.add_assoc.
    + simpl flat_map. rewrite texts_app. fold k.
      unfold strings.Join in *. simpl String.concat.
      destruct cl as [| c' cl'].
      * rewrite <- (append_nil_r c). now apply Weave_app.
      * apply Weave_app; [exact Wc |]. now apply Weave_glue_l.
Qed.

Lemma node_compiles (c : CondNode) : nodeCompiles c.
Proof.
  induction c as [t p v children IH] using CondNode_nested_ind.
  intros n Hn Hb. rewrite leaves_eq in *. rewrite parseCondNode_eq.
  destruct (isCombinator t) eqn:Ht.
  - destruct (children_compile (separator t) children (glue_separator t) IH n Hn Hb)
      as (cl & Ecl & Wcl).
    unfold parseCondChildren, parseCondChildrenWith.
    fold compileChildren. rewrite Ecl. unfold compilesAt.
    destruct (map leafValue (flat_map leavesOf children)) as [| v0 vs] eqn:Ev.
    + apply map_eq_nil in Ev. rewrite Ev. split; [reflexivity |].
      now apply Weave_end.
    + split; [reflexivity |]. simpl fst.
      apply (Weave_glue_l "(" _ _ eq_refl).
      rewrite <- (app_nil_r (texts _ n)).
      apply Weave_app; [exact Wcl | now apply Weave_end].
  - rewrite parseRegularCond_eq by exact Hn.
    simpl length in *. rewrite add_one by (try exact Hn; lia).
    split; [reflexivity |]. simpl. apply Weave_one.
Qed.

(** ** Reading the placeholders back *)

Lemma placeholders_skip (a b : string) :
  hasChar "$" a = false -> placeholders (a ++ b) = placeholders b.
Proof.
  induction a as [| c a IH]; simpl; [reflexivity |].
  intros H. apply orb_false_iff in H. destruct H as [Hc Ha].
  rewrite Hc. now apply IH.
Qed.

Lemma glue_no_dollar (g : string) : glue g = true -> hasChar "$" g = false.
Proof.
  induction g as [| c g IH]; simpl; [reflexivity |].
  intros H. apply andb_true_iff in H. destruct H as [Hc Hg].
  rewrite (IH Hg), orb_false_r.
  destruct (Ascii.eqb_spec c "$") as [-> | _]; [discriminate | reflexivity].
Qed.

Lemma glue_noDigitStart (g rest : string) :
  glue g = true -> g <> "" -> noDigitStart (g ++ rest) = true.
Proof.
  destruct g as [| c g]; [congruence |]. simpl. intros H _.
  apply andb_true_iff in H. destruct H as [Hc _].
  unfold glueChar, isDigit in *. simpl in *.
  repeat match goal with
         | |- context [Ascii.eqb c ?d] =>
             destruct (Ascii.eqb_spec c d) as [-> | _]; simpl in *;
             try discriminate; try reflexivity
         end.
Qed.

Lemma digitsOf_uint (d : Decimal.uint) (rest : string) :
  noDigitStart rest = true ->
  digitsOf (NilEmpty.string_of_uint d ++ rest) = NilEmpty.string_of_uint d.
Proof.
  intros H. induction d as [| d IH | d IH | d IH | d IH | d IH | d IH | d IH
                            | d IH | d IH | d IH];
    simpl; try (now rewrite IH).
  destruct rest as [| c rest]; [reflexivity |].
  simpl in *. now destruct (isDigit c).
Qed.

Lemma uint_no_dollar (d : Decimal.uint) :
  hasChar "$" (NilEmpty.string_of_uint d) = false.
Proof. induction d; simpl; auto. Qed.

Lemma uint_nonempty (d : Decimal.uint) :
  d <> Decimal.Nil -> NilEmpty.string_of_uint d <> "".
Proof. destruct d; simpl; congruence. Qed.

(** The digits of a position that is not negative. *)
Lemma Itoa_nonneg (n : Z) :
  0 <= n ->
  exists d, strconv.Itoa n = NilEmpty.string_of_uint d
            /\ d <> Decimal.Nil /\ Z.of_uint d = n.
Proof.
  intros Hn. unfold strconv.Itoa.
  pose proof (DecimalZ.of_to n) as E.
  destruct n as [| p | p]; [| | lia].
  - exists Decimal.zero. repeat split. discriminate.
  - exists (Pos.to_uint p). simpl in *. repeat split; [| exact E].
    apply DecimalPos.Unsigned.to_uint_nonnil.
Qed.

(** A [$] followed by the decimal text of [n] reads back as [n]. *)
Lemma placeholders_token (n : Z) (rest : string) :
  0 <= n -> noDigitStart rest = true ->
  placeholders ("$" ++ strconv.Itoa n ++ rest) = n :: placeholders rest.
Proof.
  intros Hn Hrest. destruct (Itoa_nonneg n Hn) as (d & E & Hd & Hz).
  rewrite E. simpl. rewrite (digitsOf_uint d rest Hrest).
  rewrite (placeholders_skip _ rest (uint_no_dollar d)).
  destruct (NilEmpty.string_of_uint d) eqn:Es.
  - exfalso. now apply (uint_nonempty d Hd).
  - rewrite <- Es. unfold numberOf. now rewrite NilEmpty.usu, Hz.
Qed.

Lemma hasChar_app (c : ascii) (a b : string) :
  hasChar c (a ++ b) = hasChar c a || hasChar c b.
Proof.
  induction a as [| x a IH]; simpl; [reflexivity |].
  now rewrite IH, orb_assoc.
Qed.

Lemma symbol_no_dollar (t : CondType) : hasChar "$" (symbol t) = false.
Proof. destruct t; reflexivity. Qed.

(** The text of one leaf, followed by [rest]. *)
Lemma placeholders_leaf (l : CondNode) (n : Z) (rest : string) :
  hasChar "$" (Prop_Name (Cond_Prop l)) = false ->
  0 <= n -> noDigitStart rest = true ->
  placeholders (leafText l n ++ rest) = n :: placeholders rest.
Proof.
  intros Hname Hn Hrest. unfold leafText.
  rewrite !append_assoc.
  rewrite placeholders_skip by exact Hname.
  rewrite (placeholders_skip " ") by reflexivity.
  rewrite placeholders_skip by apply symbol_no_dollar.
  change (" $" ++ strconv.Itoa n ++ rest)
    with (" " ++ "$" ++ strconv.Itoa n ++ rest).
  rewrite (placeholders_skip " ") by reflexivity.
  now apply placeholders_token.
Qed.

Lemma separator_nonempty (t : CondType) : separator t <> "".
Proof. destruct t; discriminate. Qed.

Lemma nonneg_in_range (n : Z) : 0 <= n -> n <= GoInt.int_max -> GoInt.in_range n.
Proof. unfold GoInt.in_range, GoInt.int_min. lia. Qed.

Lemma children_read_back (sep : string) (children : list Cond) :
  glue sep = true -> sep <> "" ->
  Forall (onChild nodeReadsBack) children ->
  forall n rest,
    namesClean (flat_map leavesOf children) -> 0 <= n ->
    n + Z.of_nat (length (flat_map leavesOf children)) <= GoInt.int_max ->
    noDigitStart rest = true ->
    placeholders
      (strings.Join (fst (fst (compileChildren children n))) sep ++ rest) =
    (supportedPositions (flat_map leavesOf children) n
     ++ placeholders rest)%list.
Proof.
  intros Hsep Hne H.
  induction H as [| child rest' Hc _ IH]; intros n rest Hcl Hn Hb Hrest.
  - reflexivity.
  - rewrite length_flat_cons in Hb.
    simpl flat_map in *. apply Forall_app in Hcl. destruct Hcl as [Hcl1 Hcl2].
    set (k := Z.of_nat (length (leavesOf child))) in *.
    assert (Hk : 0 <= k) by (unfold k; lia).
    assert (Hchild : exists c vs,
               parseCondSt child n = (c, vs, n + k)
               /\ forall tail, noDigitStart tail = true ->
                    placeholders (c ++ tail) =
                    (supportedPositions (leavesOf child) n
                     ++ placeholders tail)%list).
    { destruct child as [x |].
      - assert (Ek : k = Z.of_nat (length (leaves x))) by reflexivity.
        destruct (node_compiles x n) as [E _];
          [apply nonneg_in_range; lia | lia |].
        exists (fst (fst (parseCondNode x n))), (map leafValue (leaves x)).
        split; [rewrite Ek; exact E |].
        intros tail Htail. apply Hc; [exact Hcl1 | exact Hn | lia | exact Htail].
      - exists "", []. split; [| reflexivity].
        simpl. unfold k. simpl. now rewrite Z.add_0_r. }
    destruct Hchild as (c & vs & Ec & Rc).
    rewrite compileChildren_cons, Ec.
    specialize (IH (n + k)).
    destruct (compileChildren rest' (n + k)) as [[cl vl] n2].
    simpl fst in *. rewrite supportedPositions_app. fold k.
    rewrite <- app_assoc.
    unfold strings.Join in *. simpl String.concat.
    destruct cl as [| c' cl'].
    + rewrite (Rc rest Hrest). f_equal.
      apply (IH rest); [exact Hcl2 | lia | lia | exact Hrest].
    + rewrite !append_assoc.
      rewrite Rc by (now apply glue_noDigitStart).
      f_equal.
      rewrite placeholders_skip by (now apply glue_no_dollar).
      apply (IH rest); [exact Hcl2 | lia | lia | exact Hrest].
Qed.

Lemma node_reads_back (c : CondNode) : nodeReadsBack c.
Proof.
  induction c as [t p v children IH] using CondNode_nested_ind.
  intros n rest Hcl Hn Hb Hrest.
  rewrite leaves_eq in *. rewrite parseCondNode_eq.
  destruct (isCombinator t) eqn:Ht.
  - pose proof (children_read_back (separator t) children (glue_separator t)
                  (separator_nonempty t) IH n (")" ++ rest) Hcl Hn Hb eq_refl)
      as R.
    destruct (children_compile (separator t) children (glue_separator t))
      with (n := n) as (cl & Ecl & _).
    { clear - children. induction children as [| [x |] l IHl];
        constructor; try exact IHl; [apply node_compiles | exact I]. }
    { apply nonneg_in_range; lia. }
    { exact Hb. }
    unfold parseCondChildren, parseCondChildrenWith. fold compileChildren.
    rewrite Ecl in *. simpl fst in R.
    destruct (map leafValue (flat_map leavesOf children)) as [| v0 vl] eqn:Ev.
    + apply map_eq_nil in Ev. rewrite Ev. reflexivity.
    + simpl fst.
      change (placeholders (")" ++ rest)) with (placeholders rest) in R.
      rewrite <- R.
      change ("(" ++ strings.Join cl (separator t) ++ ")")
        with (String "(" (strings.Join cl (separator t) ++ ")")).
      simpl. now rewrite append_assoc.
  - rewrite parseRegularCond_eq by (apply nonneg_in_range; simpl in Hb; lia).
    simpl fst. unfold leafFragment, supportedPositions. simpl.
    destruct (supported t) eqn:Hs; [| reflexivity].
    simpl. inversion Hcl; subst.
    now apply placeholders_leaf.
Qed.

(** ** The condition compiler *)

Lemma texts_all (ls : list CondNode) (n : Z) :
  Forall (fun l => supported (Cond_Type l) = true) ls ->
  texts ls n = map (fun lp => leafText (fst lp) (snd lp)) (number ls n).
Proof.
  intros H. revert n. induction H as [| l ls Hl _ IH]; intros n.
  - reflexivity.
  - unfold texts in *. simpl. rewrite IH. unfold leafFragment. simpl.
    now rewrite Hl.
Qed.

Lemma parseCondSt_spec (c : Cond) (n : Z) :
  GoInt.in_range n ->
  n + Z.of_nat (length (leavesOf c)) <= GoInt.int_max ->
  parseCondSt c n =
    (fst (fst (parseCondSt c n)), map leafValue (leavesOf c),
     n + Z.of_nat (length (leavesOf c)))
  /\ Weave (texts (leavesOf c) n) (fst (fst (parseCondSt c n))).
Proof.
  intros Hn Hb. destruct c as [x |].
  - rewrite parseCondSt_Some. now apply node_compiles.
  - simpl. rewrite Z.add_0_r. split; [reflexivity | now apply Weave_end].
Qed.

Lemma parseCondSt_reads_back (c : Cond) (n : Z) :
  cleanNames c -> 0 <= n ->
  n + Z.of_nat (length (leavesOf c)) <= GoInt.int_max ->
  placeholders (fst (fst (parseCondSt c n))) =
  supportedPositions (leavesOf c) n.
Proof.
  intros Hcl Hn Hb. destruct c as [x |]; [| reflexivity].
  rewrite parseCondSt_Some.
  pose proof (node_reads_back x n "" Hcl Hn Hb eq_refl) as R.
  now rewrite append_nil_r, app_nil_r in R.
Qed.

(** The specification's example. *)
Example parseCond_exampleCond :
  parseCond exampleCond None =
  ("(age = $1 AND (city = $2 OR city = $3))",
   [VSigned WInt 30; VString "NY"; VString "LA"]).
Proof. reflexivity. Qed.

(** C1.  For every condition tree [T] whose leaf comparisons all use one of
    the six supported kinds, compiling [T] with the counter starting at 1
    (the fresh counter of a nil pointer, or a counter holding 1) returns the
    values of the leaves in the order of the left-to-right, depth-first
    traversal, as many as there are leaves; the fragment is the texts of
    these leaves, the i-th one written with [$i], woven with parentheses and
    separators; and, when no property name contains a [$], the placeholders
    read off the fragment are 1, 2, ..., k in this order. *)
Theorem parseCond_values_and_positions (T : Cond) :
  allSupported T ->
  leafCount T < GoInt.int_max ->
  parseCond T (Some 1) = parseCond T None
  /\ snd (parseCond T None) = map Cond_Val (leavesOf T)
  /\ length (snd (parseCond T None)) = length (leavesOf T)
  /\ Weave (map (fun lp => leafText (fst lp) (snd lp)) (number (leavesOf T) 1))
           (fst (parseCond T None))
  /\ (cleanNames T ->
      placeholders (fst (parseCond T None)) = positions 1 (length (leavesOf T))).
Proof.
  intros Hs Hb. unfold leafCount in Hb.
  assert (Hr : GoInt.in_range 1) by (unfold GoInt.in_range; split; discriminate).
  destruct (parseCondSt_spec T 1 Hr) as [E W]; [lia |].
  rewrite !parseCond_St. simpl newN. unfold newN.
  split; [reflexivity |].
  rewrite E. simpl fst. simpl snd.
  rewrite (leafValue_all _ Hs), length_map, <- (texts_all _ 1 Hs).
  repeat split; [exact W |].
  intros Hcl. rewrite <- (supportedPositions_all _ 1 Hs).
  apply parseCondSt_reads_back; [exact Hcl | lia | lia].
Qed.

Lemma parseCond_values_and_positions_witness :
  allSupported exampleCond
  /\ leafCount exampleCond < GoInt.int_max
  /\ snd (parseCond exampleCond None) = map Cond_Val (leavesOf exampleCond)
  /\ placeholders (fst (parseCond exampleCond None)) = [1; 2; 3].
Proof.
  assert (Hs : allSupported exampleCond) by (repeat constructor).
  assert (Hb : leafCount exampleCond < GoInt.int_max) by reflexivity.
  assert (Hcl : cleanNames exampleCond) by (repeat constructor).
  destruct (parseCond_values_and_positions exampleCond Hs Hb)
    as (_ & Hv & _ & _ & Hp).
  split; [exact Hs |]. split; [exact Hb |]. split; [exact Hv |].
  exact (Hp Hcl).
Defined.

(** C8.  A leaf comparison of one of the six supported kinds, compiled at a
    counter [n], advances the counter by one, emits the property name, the
    operator symbol and [$n] (the position before the increment, so [$1] at
    a counter of 1), and returns its bound value as a one-element list; the
    six kinds are written [=], [<>], [<], [<=], [>], [>=]. *)
Theorem parseRegularCond_supported (c : CondNode) (n : Z) :
  supported (Cond_Type c) = true ->
  GoInt.in_range n -> n < GoInt.int_max ->
  parseRegularCond c n =
    (Prop_Name (Cond_Prop c) ++ " " ++ symbol (Cond_Type c) ++ " $"
     ++ strconv.Itoa n, Cond_Val c, n + 1)
  /\ parseCondNode c n =
       (Prop_Name (Cond_Prop c) ++ " " ++ symbol (Cond_Type c) ++ " $"
        ++ strconv.Itoa n, [Cond_Val c], n + 1)
  /\ parseCond (Some c) None =
       (Prop_Name (Cond_Prop c) ++ " " ++ symbol (Cond_Type c) ++ " $1",
        [Cond_Val c])
  /\ map symbol [CondTypeEq; CondTypeNeq; CondTypeLt; CondTypeLte; CondTypeGt;
                 CondTypeGte]
     = ["="; "<>"; "<"; "<="; ">"; ">="].
Proof.
  intros Hs Hn Hlt.
  assert (Hleaf : isCombinator (Cond_Type c) = false)
    by (destruct (Cond_Type c); try discriminate; reflexivity).
  assert (R : forall m, GoInt.in_range m -> m < GoInt.int_max ->
              parseRegularCond c m = (leafText c m, Cond_Val c, m + 1)).
  { intros m Hm Hm'. rewrite parseRegularCond_eq by exact Hm.
    unfold leafFragment, leafValue. now rewrite Hs, add_one. }
  assert (N : forall m, GoInt.in_range m -> m < GoInt.int_max ->
              parseCondNode c m = (leafText c m, [Cond_Val c], m + 1)).
  { intros m Hm Hm'. destruct c as [t p v ch]. rewrite parseCondNode_eq.
    simpl in Hleaf. rewrite Hleaf. now rewrite R. }
  repeat split.
  - now apply R.
  - now apply N.
  - unfold parseCond, newN. rewrite N; [reflexivity | | reflexivity].
    unfold GoInt.in_range; split; discriminate.
Qed.

Lemma parseRegularCond_supported_witness :
  parseCondNode (mkCond CondTypeLte age (VSigned WInt 30) []) 4 =
  ("age <= $4", [VSigned WInt 30], 5).
Proof.
  refine (proj1 (proj2 (parseRegularCond_supported
                          (mkCond CondTypeLte age (VSigned WInt 30) []) 4
                          eq_refl _ eq_refl))).
  unfold GoInt.in_range; split; discriminate.
Defined.

(** C9.  A leaf comparison whose kind is none of the six supported ones
    compiles to the empty fragment and the nil value, the value list being
    the one-element list holding nil; the counter is advanced all the same,
    and the result carries no error. *)
Theorem parseCond_unsupported (code : nat) (p : Property) (v : GoValue)
    (children : list Cond) (n : Z) (ptr : option Z) :
  parseRegularCond (mkCond (CondTypeOther code) p v children) n
    = ("", VNil, GoInt.add n 1)
  /\ parseCondNode (mkCond (CondTypeOther code) p v children) n
    = ("", [VNil], GoInt.add n 1)
  /\ parseCond (Some (mkCond (CondTypeOther code) p v children)) ptr
    = ("", [VNil]).
Proof. repeat split; destruct ptr; reflexivity. Qed.

(** ** Unsupported leaves *)

Lemma number_bounds (ls : list CondNode) (n : Z) (l : CondNode) (x : Z) :
  In (l, x) (number ls n) -> n <= x < n + Z.of_nat (length ls).
Proof.
  revert n. induction ls as [| l0 ls IH]; intros n; simpl number.
  - intros [].
  - intros [E | H].
    + inversion E; subst. simpl length. lia.
    + apply IH in H. simpl length. lia.
Qed.

Lemma supportedPositions_bounds (ls : list CondNode) (n x : Z) :
  In x (supportedPositions ls n) -> n <= x < n + Z.of_nat (length ls).
Proof.
  unfold supportedPositions. intros H.
  apply in_map_iff in H. destruct H as ([l y] & E & H). simpl in E. subst y.
  apply filter_In in H. destruct H as [H _].
  now apply number_bounds in H.
Qed.

Lemma number_shift (ls : list CondNode) (n : Z) :
  number ls (n + 1) = map (fun lp => (fst lp, Z.succ (snd lp))) (number ls n).
Proof.
  revert n. induction ls as [| l ls IH]; intros n; simpl; [reflexivity |].
  rewrite IH. f_equal.
Qed.

Lemma supportedPositions_shift (ls : list CondNode) (n : Z) :
  supportedPositions ls (n + 1) = map Z.succ (supportedPositions ls n).
Proof.
  unfold supportedPositions. rewrite number_shift.
  induction (number ls n) as [| [l x] r IH]; simpl; [reflexivity |].
  destruct (supported (Cond_Type l)); simpl; now rewrite IH.
Qed.

Lemma leaves_are_leaves (c : CondNode) :
  Forall (fun l => isCombinator (Cond_Type l) = false) (leaves c).
Proof.
  induction c as [t p v children IH] using CondNode_nested_ind.
  rewrite leaves_eq. destruct (isCombinator t) eqn:Ht.
  - induction IH as [| child rest Hc _ IHrest]; simpl; [constructor |].
    apply Forall_app. split; [| exact IHrest].
    destruct child as [x |]; [exact Hc | constructor].
  - constructor; [exact Ht | constructor].
Qed.

(** C10.  Every leaf advances the shared counter by exactly one, whether its
    kind is supported or not: a tree compiled at [n] leaves the counter at
    [n] plus the number of its leaves.  An unsupported leaf [u] with the
    leaves [pre] before it and [post] after it is compiled at position
    [n + length pre], which it consumes while emitting nothing; this
    position does not occur in the fragment, and the leaves after [u] get
    the positions from [n + length pre + 1] on, one higher each than if [u]
    were not there. *)
Theorem unsupported_leaf_consumes_position
    (T : Cond) (n : Z) (pre post : list CondNode) (u : CondNode) :
  leavesOf T = (pre ++ u :: post)%list ->
  supported (Cond_Type u) = false ->
  cleanNames T ->
  0 <= n ->
  n + Z.of_nat (length (leavesOf T)) <= GoInt.int_max ->
  snd (parseCondSt T n) = n + Z.of_nat (length (leavesOf T))
  /\ parseCondNode u (n + Z.of_nat (length pre))
     = ("", [VNil], n + Z.of_nat (length pre) + 1)
  /\ placeholders (fst (fst (parseCondSt T n)))
     = (supportedPositions pre n
        ++ supportedPositions post (n + Z.of_nat (length pre) + 1))%list
  /\ supportedPositions post (n + Z.of_nat (length pre) + 1)
     = map Z.succ (supportedPositions post (n + Z.of_nat (length pre)))
  /\ ~ In (n + Z.of_nat (length pre)) (placeholders (fst (fst (parseCondSt T n)))).
Proof.
  intros El Hu Hcl Hn Hb.
  assert (Hlen : Z.of_nat (length (leavesOf T))
                 = Z.of_nat (length pre) + 1 + Z.of_nat (length post)).
  { rewrite El, length_app. simpl length. lia. }
  assert (Hr : GoInt.in_range n) by (apply nonneg_in_range; lia).
  destruct (parseCondSt_spec T n Hr Hb) as [E _].
  assert (Hp : placeholders (fst (fst (parseCondSt T n)))
               = (supportedPositions pre n
                  ++ supportedPositions post (n + Z.of_nat (length pre) + 1))%list).
  { rewrite (parseCondSt_reads_back T n Hcl Hn Hb), El.
    rewrite supportedPositions_app. f_equal.
    unfold supportedPositions at 1. simpl. rewrite Hu. reflexivity. }
  split; [now rewrite E |]. split; [| split; [exact Hp | split]].
  - assert (Hleaf : isCombinator (Cond_Type u) = false).
    { destruct T as [x |]; [| now destruct pre].
      pose proof (leaves_are_leaves x) as F. simpl in El. rewrite El in F.
      apply Forall_app in F. destruct F as [_ F]. now inversion F. }
    destruct u as [t p v ch]. simpl in Hleaf, Hu.
    rewrite parseCondNode_eq, Hleaf, parseRegularCond_eq.
    + unfold leafFragment, leafValue. simpl. rewrite Hu.
      rewrite add_one; [reflexivity | | lia].
      apply nonneg_in_range; lia.
    + apply nonneg_in_range; lia.
  - apply supportedPositions_shift.
  - rewrite Hp. intros H. apply in_app_or in H. destruct H as [H | H].
    + apply supportedPositions_bounds in H. lia.
    + apply supportedPositions_bounds in H. lia.
Qed.

Lemma unsupported_leaf_consumes_position_witness :
  placeholders
    (fst (fst (parseCondSt
                 (And [Eq age (VSigned WInt 30); unsupportedLeaf;
                       Eq city (VString "NY")]) 1)))
  = [1; 3].
Proof.
  refine (proj1 (proj2 (proj2
            (unsupported_leaf_consumes_position
               (And [Eq age (VSigned WInt 30); unsupportedLeaf;
                     Eq city (VString "NY")])
               1
               [mkCond CondTypeEq age (VSigned WInt 30) []]
               [mkCond CondTypeEq city (VString "NY") []]
               (mkCond (CondTypeOther 0) age (VString "x") [])
               eq_refl eq_refl _ _ _)))).
  - repeat constructor.
  - lia.
  - vm_compute. discriminate.
Defined.

(** ** Combinators *)

Lemma filter_nonEmpty_all (cl : list string) :
  Forall (fun s => s <> "") cl -> filter nonEmpty cl = cl.
Proof.
  induction 1 as [| s cl Hs _ IH]; simpl; [reflexivity |].
  unfold nonEmpty at 1. apply String.eqb_neq in Hs. now rewrite Hs, IH.
Qed.

(** When no child of a combinator compiles to the empty fragment, the
    program's fragment is the parenthesised join of the child fragments
    that are not empty. *)
Lemma combinator_joins_nonempty_children
    (t : CondType) (p : Property) (v : GoValue) (children : list Cond) (n : Z) :
  isCombinator t = true ->
  snd (fst (compileChildren children n)) <> [] ->
  Forall (fun s => s <> "") (fst (fst (compileChildren children n))) ->
  fst (fst (parseCondNode (mkCond t p v children) n))
  = joinNonEmpty (fst (fst (compileChildren children n))) (separator t).
Proof.
  intros Ht Hvl Hcl. rewrite parseCondNode_eq, Ht.
  unfold parseCondChildren, parseCondChildrenWith. fold compileChildren.
  destruct (compileChildren children n) as [[cl vl] n']. simpl in *.
  unfold joinNonEmpty. rewrite (filter_nonEmpty_all cl Hcl).
  destruct vl; [contradiction | reflexivity].
Qed.

(** C3.  On the tree AND(AND(), age = 30) the first child compiles to the
    empty fragment, and the program joins it all the same: the fragment is
    ["( AND age = $1)"], the separator standing next to an empty operand,
    where the join of the child fragments that are not empty is
    ["(age = $1)"]. *)
Lemma combinator_keeps_empty_operand :
  let children := [And []; Eq age (VSigned WInt 30)] in
  fst (fst (compileChildren children 1)) = [""; "age = $1"]
  /\ fst (parseCond (And children) None) = "( AND age = $1)"
  /\ fst (parseCond (And children) None)
     <> joinNonEmpty (fst (fst (compileChildren children 1))) " AND ".
Proof. vm_compute. repeat split. discriminate. Qed.

(** A combinator whose only child is an unsupported leaf: the child compiles
    to the empty fragment, the combinator does not. *)
Lemma combinator_of_unsupported_leaf :
  fst (parseCond unsupportedLeaf None) = ""
  /\ parseCond (And [unsupportedLeaf]) None = ("()", [VNil])
  /\ parseCond (And [unsupportedLeaf]) None <> ("", [])
  /\ DeleteStatement users (And [unsupportedLeaf])
     = ("DELETE FROM users WHERE ()", [VNil]).
Proof. vm_compute. repeat split. discriminate. Qed.

Lemma compileChildren_no_values (children : list Cond) :
  Forall (fun child => forall m, fst (parseCondSt child m) = ("", [])) children ->
  forall n, snd (fst (compileChildren children n)) = [].
Proof.
  induction 1 as [| child rest Hc _ IH]; intros n; [reflexivity |].
  rewrite compileChildren_cons. specialize (Hc n).
  destruct (parseCondSt child n) as [[c v] n1]. simpl in Hc.
  specialize (IH n1). destruct (compileChildren rest n1) as [[cl vl] n2].
  simpl in *. injection Hc as -> ->. exact IH.
Qed.

Lemma buildWhere_eq (c : Cond) (query : string) (n : option Z)
    (queryValues : list fmt.arg) :
  buildWhere c query n queryValues =
  (if String.eqb (fst (parseCond c n)) "" then fmt.Sprintf query queryValues
   else fmt.Sprintf (query ++ " WHERE %s")
          (queryValues ++ [fmt.S (fst (parseCond c n))])%list,
   snd (parseCond c n)).
Proof.
  unfold buildWhere. destruct (parseCond c n) as [w vs]. simpl.
  now destruct (String.eqb w "").
Qed.

(** C4.  A combinator with no children, or whose children all
    compile to the empty fragment with an empty value list (absent
    conditions and combinators that compile empty in turn), compiles to the
    empty fragment with an empty value list, not to ["()"]; so does an
    absent condition.  The statement builder leaves the statement as it is
    when the compiled fragment is empty, and appends [" WHERE "] and the
    fragment only when it is not. *)
Theorem empty_combinator_compiles_empty
    (t : CondType) (p : Property) (v : GoValue) (children : list Cond)
    (n : option Z) (store : Store) :
  isCombinator t = true ->
  Forall (fun child => forall m, fst (parseCondSt child m) = ("", [])) children ->
  parseCond (Some (mkCond t p v children)) n = ("", [])
  /\ parseCond None n = ("", [])
  /\ DeleteStatement store (Some (mkCond t p v children))
     = ("DELETE FROM " ++ Store_Name store, [])
  /\ DeleteStatement store None = ("DELETE FROM " ++ Store_Name store, [])
  /\ (forall c query queryValues,
        fst (parseCond c n) = "" ->
        buildWhere c query n queryValues
        = (fmt.Sprintf query queryValues, snd (parseCond c n)))
  /\ (forall c query queryValues,
        fst (parseCond c n) <> "" ->
        buildWhere c query n queryValues
        = (fmt.Sprintf (query ++ " WHERE %s")
             (queryValues ++ [fmt.S (fst (parseCond c n))])%list,
           snd (parseCond c n))).
Proof.
  intros Ht Hch.
  assert (E : forall ptr, parseCond (Some (mkCond t p v children)) ptr = ("", [])).
  { intros ptr. unfold parseCond. rewrite parseCondNode_eq, Ht.
    unfold parseCondChildren, parseCondChildrenWith. fold compileChildren.
    pose proof (compileChildren_no_values children Hch
                  (match ptr with Some v0 => v0 | None => newN end)) as Hv.
    destruct (compileChildren children _) as [[cl vl] n'].
    simpl in Hv. subst vl. reflexivity. }
  split; [apply E |]. split; [reflexivity |].
  split; [| split; [| split]].
  - unfold DeleteStatement. rewrite buildWhere_eq, E. simpl.
    now rewrite append_nil_r.
  - unfold DeleteStatement. rewrite buildWhere_eq. simpl.
    now rewrite append_nil_r.
  - intros c q qv H. rewrite buildWhere_eq, H. reflexivity.
  - intros c q qv H. rewrite buildWhere_eq.
    apply String.eqb_neq in H. now rewrite H.
Qed.

Lemma empty_combinator_compiles_empty_witness :
  parseCond (Or [None; And []; Or [None]]) None = ("", [])
  /\ DeleteStatement users (Or [None; And []; Or [None]])
     = ("DELETE FROM users", []).
Proof.
  assert (H : Forall (fun child => forall m, fst (parseCondSt child m) = ("", []))
                [None; And []; Or [None]])
    by (repeat constructor).
  destruct (empty_combinator_compiles_empty CondTypeOr noProp VNil
              [None; And []; Or [None]] None users eq_refl H)
    as (H1 & _ & H3 & _).
  split; [exact H1 | exact H3].
Defined.

(** ** The statement builder *)

Lemma store_at {A : Type} (done rest : list A) (x y : A) :
  store (done ++ x :: rest)%list (length done) y = Some (done ++ y :: rest)%list.
Proof.
  induction done as [| d done IH]; simpl; [reflexivity | now rewrite IH].
Qed.

Lemma store_end {A : Type} (done : list A) (y : A) :
  store done (length done) y = None.
Proof.
  induction done as [| d done IH]; simpl; [reflexivity | now rewrite IH].
Qed.

Lemma queryPropertiesLoop_spec (isSerial : bool) (ps : list Property) :
  forall (done : list string) (m : nat),
    queryPropertiesLoop ps isSerial (done ++ repeat "" m)%list (length done) =
    if (length (filter (kept isSerial) ps) <=? m)%nat
    then Some (done ++ map Prop_Name (filter (kept isSerial) ps)
               ++ repeat "" (m - length (filter (kept isSerial) ps)))%list
    else None.
Proof.
  induction ps as [| p ps IH]; intros done m;
    cbn [queryPropertiesLoop filter].
  - simpl. now rewrite Nat.sub_0_r.
  - change (kept isSerial p) with (negb (isSerial && Prop_IsPk p)).
    destruct (isSerial && Prop_IsPk p); cbn [negb].
    + apply IH.
    + destruct m as [| m]; cbn [repeat].
      * now rewrite app_nil_r, store_end.
      * rewrite store_at.
        replace (done ++ Prop_Name p :: repeat "" m)%list
          with ((done ++ [Prop_Name p]) ++ repeat "" m)%list
          by (now rewrite <- app_assoc).
        replace (Datatypes.S (length done))
          with (length (done ++ [Prop_Name p])%list)
          by (rewrite length_app; simpl; lia).
        rewrite IH. cbn [length map Nat.leb Nat.sub].
        destruct (length (filter (kept isSerial) ps) <=? m)%nat;
          [| reflexivity].
        now rewrite <- app_assoc.
Qed.

Lemma filter_kept_false (ps : list Property) : filter (kept false) ps = ps.
Proof.
  induction ps as [| p ps IH]; simpl; [reflexivity | now rewrite IH].
Qed.

Lemma filter_kept_true (ps : list Property) :
  filter (kept true) ps = filter nonPk ps.
Proof. apply filter_ext. reflexivity. Qed.

Lemma filter_nonPk_length (ps : list Property) :
  (length (filter nonPk ps) + pkCount ps = length ps)%nat.
Proof.
  unfold pkCount, nonPk. induction ps as [| p ps IH]; simpl; [reflexivity |].
  destruct (Prop_IsPk p); simpl; lia.
Qed.

Lemma makeStrings_nat (k : nat) : makeStrings (Z.of_nat k) = Some (repeat "" k).
Proof.
  unfold makeStrings. destruct (Z.ltb_spec (Z.of_nat k) 0); [lia |].
  now rewrite Nat2Z.id.
Qed.

(** With every property listed, [buildQueryProperties] does not panic. *)
Lemma buildQueryProperties_all (ps : list Property) :
  buildQueryProperties ps false = Some (strings.Join (map Prop_Name ps) ", ").
Proof.
  unfold buildQueryProperties. rewrite makeStrings_nat.
  pose proof (queryPropertiesLoop_spec false ps [] (length ps)) as L.
  simpl in L. rewrite L, filter_kept_false, Nat.leb_refl.
  now rewrite Nat.sub_diag, app_nil_r.
Qed.

(** With exactly one primary key among the properties, the serial column
    list is the names of the others, in order. *)
Lemma buildQueryProperties_serial (ps : list Property) :
  pkCount ps = 1%nat ->
  buildQueryProperties ps true
  = Some (strings.Join (map Prop_Name (filter nonPk ps)) ", ").
Proof.
  intros H. unfold buildQueryProperties.
  pose proof (filter_nonPk_length ps) as Hl.
  replace (Z.of_nat (length ps) - 1) with (Z.of_nat (length (filter nonPk ps)))
    by lia.
  rewrite makeStrings_nat.
  pose proof (queryPropertiesLoop_spec true ps [] (length (filter nonPk ps))) as L.
  simpl in L. rewrite L, filter_kept_true, Nat.leb_refl.
  now rewrite Nat.sub_diag, app_nil_r.
Qed.

Lemma buildInsertPlaceholders_nat (k : nat) :
  buildInsertPlaceholders (Z.of_nat k)
  = Some (strings.Join (map placeholder (seq 1 k)) ", ").
Proof.
  unfold buildInsertPlaceholders. now rewrite makeStrings_nat, Nat2Z.id.
Qed.

Lemma serialValues_spec (ps : list Property) :
  forall vs, length vs = length ps ->
    serialValues ps vs
    = Some (map snd (filter (fun pv => nonPk (fst pv)) (combine ps vs))).
Proof.
  induction ps as [| p ps IH]; intros [| v vs] H; simpl in *;
    try discriminate; [reflexivity |].
  rewrite IH by lia. unfold nonPk. now destruct (Prop_IsPk p).
Qed.

Lemma serialValues_length (ps : list Property) :
  forall vs : list GoValue, length vs = length ps ->
    length (map snd (filter (fun pv => nonPk (fst pv)) (combine ps vs)))
    = length (filter nonPk ps).
Proof.
  induction ps as [| p ps IH]; intros [| v vs] H; simpl in *;
    try discriminate; [reflexivity |].
  destruct (nonPk p); simpl; rewrite IH by lia; reflexivity.
Qed.

(** ** Find *)

(** The specification's two calls. *)
Example Find_limit_5_offset_10 :
  FindStatement users (Eq age (VSigned WInt 30)) 5 10
  = Some ("SELECT id, age, city FROM users WHERE age = $1 LIMIT 5 OFFSET 10",
          [VSigned WInt 30]).
Proof. reflexivity. Qed.

Example Find_no_limit :
  FindStatement users None 0 0 = Some ("SELECT id, age, city FROM users", [])
  /\ contains "SELECT id, age, city FROM users" "LIMIT" = false
  /\ contains "SELECT id, age, city FROM users" "OFFSET" = false.
Proof. repeat split. Qed.

(** C7.  [Find] always builds a statement.  When [limit > 0] its text is the
    statement without pagination followed by exactly
    [" LIMIT <limit> OFFSET <offset>"]; when [limit <= 0] it is the statement
    without pagination and nothing else, whatever the offset. *)
Theorem Find_limit_offset (store : Store) (condition : Cond) (limit offset : Z) :
  (0 < limit ->
   FindStatement store condition limit offset
   = Some (fst (FindBase store condition) ++ " LIMIT " ++ strconv.Itoa limit
           ++ " OFFSET " ++ strconv.Itoa offset,
           snd (FindBase store condition)))
  /\ (limit <= 0 ->
      FindStatement store condition limit offset
      = Some (FindBase store condition)).
Proof.
  unfold FindStatement, FindBase. rewrite buildQueryProperties_all.
  destruct (buildWhere condition "SELECT %s FROM %s" None _) as [query args].
  split; intros H.
  - destruct (Z.ltb_spec 0 limit); [| lia]. simpl.
    now rewrite append_nil_r.
  - destruct (Z.ltb_spec 0 limit); [lia | reflexivity].
Qed.

Lemma Find_limit_offset_witness :
  FindStatement users (Eq age (VSigned WInt 30)) 5 10
  = Some ("SELECT id, age, city FROM users WHERE age = $1"
          ++ " LIMIT 5 OFFSET 10", [VSigned WInt 30])
  /\ FindStatement users (Eq age (VSigned WInt 30)) (-1) 10
     = Some ("SELECT id, age, city FROM users WHERE age = $1",
             [VSigned WInt 30]).
Proof.
  split.
  - exact (proj1 (Find_limit_offset users (Eq age (VSigned WInt 30)) 5 10)
             eq_refl).
  - refine (proj2 (Find_limit_offset users (Eq age (VSigned WInt 30)) (-1) 10)
              _).
    discriminate.
Defined.

(** ** Update *)

Lemma updatePropsLoop_spec (values : list Val) :
  forall idx i,
    updatePropsLoop values idx i =
    (assignments values (idx + 1), map Val_Val values,
     match values with
     | [] => i
     | _ => idx + Z.of_nat (length values) - 1
     end).
Proof.
  induction values as [| v rest IH]; intros idx i; [reflexivity |].
  cbn [updatePropsLoop]. rewrite IH. cbn [assignments map].
  f_equal. destruct rest; simpl length; lia.
Qed.

(** The counter [buildUpdateProps] returns: one past the assignments when
    there is one at least, and 2 when there is none. *)
Lemma buildUpdateProps_eq (values : list Val) :
  buildUpdateProps values =
  (match values with
   | [] => 2
   | _ => Z.of_nat (length values) + 1
   end,
   strings.Join (assignments values 1) ", ", map Val_Val values).
Proof.
  unfold buildUpdateProps. rewrite updatePropsLoop_spec. simpl.
  repeat f_equal. destruct values; [reflexivity | simpl length; lia].
Qed.

(** The specification's example. *)
Example Update_example :
  UpdateStatement users (Eq id (VSigned WInt 7)) [mkVal name (VString "Bob")]
  = ("UPDATE users SET name = $1 WHERE id = $2",
     [VString "Bob"; VSigned WInt 7]).
Proof. reflexivity. Qed.

(** With one assignment at least, [Update] binds the SET values followed by
    the WHERE values, and numbers the WHERE placeholders from [j + 1] on. *)
Lemma UpdateStatement_some_assignments
    (store : Store) (condition : Cond) (values : list Val) :
  values <> [] ->
  allSupported condition ->
  Z.of_nat (length values) + leafCount condition < GoInt.int_max ->
  let j := Z.of_nat (length values) in
  let w := fst (parseCond condition (Some (j + 1))) in
  UpdateStatement store condition values
  = ("UPDATE " ++ Store_Name store ++ " SET "
     ++ strings.Join (assignments values 1) ", "
     ++ (if String.eqb w "" then "" else " WHERE " ++ w),
     (map Val_Val values ++ map Cond_Val (leavesOf condition))%list)
  /\ (cleanNames condition ->
      placeholders w = positions (j + 1) (length (leavesOf condition))).
Proof.
  intros Hne Hs Hb j w. unfold leafCount in Hb.
  assert (Hr : GoInt.in_range (j + 1)) by (apply nonneg_in_range; lia).
  destruct (parseCondSt_spec condition (j + 1) Hr) as [E _]; [lia |].
  assert (Ew : parseCond condition (Some (j + 1))
               = (w, map Cond_Val (leavesOf condition))).
  { subst w. rewrite parseCond_St, E. simpl. now rewrite (leafValue_all _ Hs). }
  split.
  - unfold UpdateStatement. rewrite buildUpdateProps_eq.
    destruct values as [| v0 vs]; [contradiction |].
    fold j. rewrite buildWhere_eq, Ew. simpl fst. simpl snd.
    destruct (String.eqb w ""); simpl; now rewrite !append_nil_r.
  - intros Hcl. subst w. rewrite parseCond_St. simpl.
    rewrite (parseCondSt_reads_back condition (j + 1) Hcl) by lia.
    now apply supportedPositions_all.
Qed.

(** C2.  With no assignment ([j = 0]) the counter [buildUpdateProps]
    returns is 2, not [j + 1 = 1]: [Update] with the condition [id = 7]
    binds the one value [7] and refers to it as [$2], where the WHERE
    placeholders should be numbered from [j + 1 = 1] on. *)
Theorem Update_without_assignments :
  fst (fst (buildUpdateProps [])) = 2
  /\ UpdateStatement users (Eq id (VSigned WInt 7)) []
     = ("UPDATE users SET  WHERE id = $2", [VSigned WInt 7]).
Proof. split; reflexivity. Qed.

(** ** Put *)

(** Where the type assertion of [isPkEmpty] names the dynamic type, the test
    answers whether the key is the zero value of its type. *)
Lemma isPkEmpty_asserted_type (pk : GoValue) (b : bool) :
  handledPkType pk = true -> isPkEmpty pk = Some b -> b = isZeroValue pk.
Proof.
  destruct pk as [| s | w z | w z | w f | tag]; simpl; try discriminate;
    try destruct w; simpl; intros _ H; now inversion H.
Qed.

(** It panics on every other width of the handled types. *)
Lemma isPkEmpty_panics (pk : GoValue) :
  isPkEmpty pk = None <->
  (exists w z, pk = VSigned w z /\ w <> W64)
  \/ (exists w z, pk = VUnsigned w z /\ w <> W64)
  \/ (exists f, pk = VFloat F32 f).
Proof.
  split.
  - destruct pk as [| s | w z | w z | w f | tag]; simpl; try discriminate.
    + destruct w; try discriminate; intros _; left; eexists _, _;
        (split; [reflexivity | discriminate]).
    + destruct w; try discriminate; intros _; right; left; eexists _, _;
        (split; [reflexivity | discriminate]).
    + destruct w; try discriminate. intros _. right. right. now exists f.
  - intros [(w & z & -> & Hw) | [(w & z & -> & Hw) | (f & ->)]]; simpl;
      try reflexivity; now destruct w.
Qed.

(** C5.  On a primary key of dynamic type [int] holding 0 the case of the
    type switch is taken and its assertion [pk.(int64)] fails: the
    emptiness test panics, although 0 is the zero value of [int]; so it
    does on every signed or unsigned width but the 64-bit one, and on
    [float32]. *)
Theorem isPkEmpty_int_panics :
  isPkEmpty (VSigned WInt 0) = None
  /\ isZeroValue (VSigned WInt 0) = true
  /\ handledPkType (VSigned WInt 0) = true
  /\ (forall z, isPkEmpty (VSigned W32 z) = None)
  /\ (forall z, isPkEmpty (VUnsigned W8 z) = None)
  /\ (forall f, isPkEmpty (VFloat F32 f) = None).
Proof. repeat split. Qed.

Lemma wellFormed_pk (m : Model) :
  wellFormed m ->
  Prop_IsPk (OrmPkProp m) = true
  /\ In (OrmPkProp m) (OrmProps m)
  /\ In (OrmPk m) (OrmVals m).
Proof.
  intros [_ Hone Hpk]. unfold pkCount in Hone.
  destruct (filter Prop_IsPk (OrmProps m)) as [| p l] eqn:Ef; [discriminate |].
  assert (Hin : In p (filter Prop_IsPk (OrmProps m))) by (rewrite Ef; now left).
  apply filter_In in Hin. destruct Hin as [Hin Hp].
  destruct (In_nth_error _ _ Hin) as [i Hi].
  destruct (Hpk i p Hi Hp) as [-> Hv].
  repeat split; [exact Hp | exact Hin |].
  now apply nth_error_In in Hv.
Qed.

Lemma PutStatement_eq (m : Model) (isSerial : bool) :
  wellFormed m ->
  isPkEmpty (OrmPk m) = Some isSerial ->
  PutStatement m =
  if isSerial
  then Some (insertSQL m (filter nonPk (OrmProps m)) (length (nonPkValues m)),
             nonPkValues m)
  else Some (insertSQL m (OrmProps m) (length (OrmVals m)), OrmVals m).
Proof.
  intros Hwf Hpk. pose proof Hwf as [Hlen Hone _].
  unfold PutStatement. rewrite Hpk.
  pose proof (filter_nonPk_length (OrmProps m)) as Hl.
  destruct isSerial.
  - rewrite (buildQueryProperties_serial _ Hone).
    replace (Z.of_nat (length (OrmVals m)) - 1)
      with (Z.of_nat (length (filter nonPk (OrmProps m)))) by lia.
    rewrite buildInsertPlaceholders_nat.
    rewrite (serialValues_spec _ _ Hlen). fold (nonPkValues m).
    unfold nonPkValues. rewrite (serialValues_length _ _ Hlen).
    unfold insertSQL. simpl. now rewrite append_nil_r.
  - rewrite buildQueryProperties_all, buildInsertPlaceholders_nat.
    unfold insertSQL. simpl. now rewrite append_nil_r.
Qed.




Example Put_user7 :
  PutStatement user7
  = Some ("INSERT INTO users (id, age, city) VALUES ($1, $2, $3) RETURNING id",
          [VSigned W64 7; VSigned WInt 30; VString "NY"]).
Proof. reflexivity. Qed.

(** * Further properties of the program *)

(** ** The values of a tree *)

Lemma parseRegularCond_value (c : CondNode) (n : Z) :
  snd (fst (parseRegularCond c n)) = leafValue c.
Proof.
  unfold parseRegularCond, leafValue. destruct (Cond_Type c); reflexivity.
Qed.

Lemma children_values (children : list Cond) :
  Forall (onChild nodeValues) children ->
  forall n,
    snd (fst (compileChildren children n))
    = map leafValue (flat_map leavesOf children).
Proof.
  induction 1 as [| child rest Hc _ IH]; intros n; [reflexivity |].
  rewrite compileChildren_cons.
  assert (Hv : snd (fst (parseCondSt child n)) = map leafValue (leavesOf child)).
  { destruct child as [x |]; [apply Hc | reflexivity]. }
  destruct (parseCondSt child n) as [[c v] n1]. simpl in Hv. subst v.
  specialize (IH n1). destruct (compileChildren rest n1) as [[cl vl] n2].
  simpl in *. now rewrite map_app, IH.
Qed.

Lemma node_values (c : CondNode) : nodeValues c.
Proof.
  induction c as [t p v children IH] using CondNode_nested_ind.
  intros n. rewrite leaves_eq, parseCondNode_eq.
  destruct (isCombinator t).
  - pose proof (children_values children IH n) as Hv.
    unfold parseCondChildren, parseCondChildrenWith. fold compileChildren.
    destruct (compileChildren children n) as [[cl vl] n']. simpl in Hv.
    rewrite <- Hv. now destruct vl.
  - pose proof (parseRegularCond_value (mkCond t p v children) n) as Hv.
    destruct (parseRegularCond (mkCond t p v children) n) as [[s v'] n'].
    simpl in *. now rewrite Hv.
Qed.

(** X1.  Whatever the kinds of its leaves and whatever the counter, a
    condition compiles to one bound value per leaf, in the order of the
    left-to-right, depth-first traversal: the leaf's own value when its kind
    is supported, nil when it is not.  The values do not depend on the
    counter. *)
Theorem parseCond_one_value_per_leaf (T : Cond) (ptr : option Z) (n : Z) :
  snd (parseCond T ptr) = map leafValue (leavesOf T)
  /\ snd (fst (parseCondSt T n)) = map leafValue (leavesOf T)
  /\ length (snd (parseCond T ptr)) = length (leavesOf T).
Proof.
  assert (H : forall m, snd (fst (parseCondSt T m)) = map leafValue (leavesOf T)).
  { intros m. destruct T as [x |]; [apply node_values | reflexivity]. }
  assert (E : snd (parseCond T ptr) = map leafValue (leavesOf T)).
  { rewrite parseCond_St. destruct (parseCondSt T _) as [[s v] n'] eqn:Ep.
    specialize (H (match ptr with Some v0 => v0 | None => newN end)).
    rewrite Ep in H. exact H. }
  repeat split; [exact E | apply H | now rewrite E, length_map].
Qed.

(** ** When a WHERE clause is written *)

Lemma append_cons_nonempty (a b : string) (c : ascii) : a ++ String c b <> "".
Proof. destruct a; discriminate. Qed.

Lemma parseRegularCond_text (c : CondNode) (n : Z) :
  supported (Cond_Type c) = true ->
  parseRegularCond c n
  = (leafText c (GoInt.sub (GoInt.add n 1) 1), Cond_Val c, GoInt.add n 1).
Proof.
  unfold parseRegularCond, leafText.
  destruct (Cond_Type c); try discriminate; reflexivity.
Qed.

Lemma parseCondSt_empty_iff (T : Cond) (n : Z) :
  (forall x, T = Some x -> isCombinator (Cond_Type x) = false ->
             supported (Cond_Type x) = true) ->
  fst (fst (parseCondSt T n)) = "" <-> leavesOf T = [].
Proof.
  intros Htop. destruct T as [[t p v children] |]; [| now split].
  rewrite parseCondSt_Some.
  pose proof (node_values (mkCond t p v children) n) as Hv.
  specialize (Htop _ eq_refl). simpl in Htop.
  unfold leavesOf in *. rewrite leaves_eq in *. rewrite parseCondNode_eq in *.
  destruct (isCombinator t).
  - destruct (parseCondChildren children (separator t) n) as [[s vl] n'] eqn:Ec.
    destruct vl as [| v0 vl]; simpl in Hv.
    + split; [| reflexivity]. intros _. symmetry in Hv.
      now apply map_eq_nil in Hv.
    + split.
      * intros Hs. simpl in Hs. unfold parseCondChildren, parseCondChildrenWith in Ec.
        destruct (compileChildrenWith parseCondNode children n) as [[cl vl'] n2].
        inversion Ec; subst. discriminate.
      * intros Hl. rewrite Hl in Hv. discriminate.
  - rewrite parseRegularCond_text by now apply Htop.
    split; [| discriminate].
    intros Hs. simpl in Hs. unfold leafText in Hs.
    now apply append_cons_nonempty in Hs.
Qed.

(** X2.  For a condition that is not itself an unsupported leaf, the
    compiled fragment is empty exactly when the tree has no leaf at all, so
    [buildWhere] leaves the statement without a WHERE clause for a tree
    without leaves and appends one for every tree that has a leaf. *)
Theorem where_clause_iff_leaf
    (T : Cond) (ptr : option Z) (query : string) (queryValues : list fmt.arg) :
  (forall x, T = Some x -> isCombinator (Cond_Type x) = false ->
             supported (Cond_Type x) = true) ->
  (fst (parseCond T ptr) = "" <-> leavesOf T = [])
  /\ (leavesOf T = [] ->
      buildWhere T query ptr queryValues = (fmt.Sprintf query queryValues, []))
  /\ (leavesOf T <> [] ->
      buildWhere T query ptr queryValues
      = (fmt.Sprintf (query ++ " WHERE %s")
           (queryValues ++ [fmt.S (fst (parseCond T ptr))])%list,
         map leafValue (leavesOf T))).
Proof.
  intros Htop.
  assert (Hiff : fst (parseCond T ptr) = "" <-> leavesOf T = []).
  { rewrite parseCond_St. now apply parseCondSt_empty_iff. }
  assert (Hv : snd (parseCond T ptr) = map leafValue (leavesOf T)).
  { rewrite parseCond_St. destruct T as [x |]; [apply node_values | reflexivity]. }
  split; [exact Hiff |]. split; intros Hl; rewrite buildWhere_eq, Hv.
  - apply Hiff in Hl as Hw. rewrite Hw, Hl. reflexivity.
  - assert (Hw : fst (parseCond T ptr) <> "") by (intros H; now apply Hiff in H).
    apply String.eqb_neq in Hw. now rewrite Hw.
Qed.

Lemma where_clause_iff_leaf_witness :
  DeleteStatement users (And [Or []; None]) = ("DELETE FROM users", [])
  /\ DeleteStatement users (And [Or []; unsupportedLeaf])
     = ("DELETE FROM users WHERE ( AND )", [VNil]).
Proof.
  assert (H1 : forall x, And [Or []; None] = Some x ->
                 isCombinator (Cond_Type x) = false ->
                 supported (Cond_Type x) = true).
  { intros x Hx. inversion Hx; subst. discriminate. }
  assert (H2 : forall x, And [Or []; unsupportedLeaf] = Some x ->
                 isCombinator (Cond_Type x) = false ->
                 supported (Cond_Type x) = true).
  { intros x Hx. inversion Hx; subst. discriminate. }
  assert (Hne : leavesOf (And [Or []; unsupportedLeaf]) <> []) by discriminate.
  split.
  - exact (proj1 (proj2 (where_clause_iff_leaf (And [Or []; None]) None
                           "DELETE FROM %s" [fmt.S "users"] H1)) eq_refl).
  - exact (proj2 (proj2 (where_clause_iff_leaf (And [Or []; unsupportedLeaf])
                           None "DELETE FROM %s" [fmt.S "users"] H2)) Hne).
Defined.

(** ** Placeholders against values *)

Lemma supportedPositions_length (ls : list CondNode) (n : Z) :
  length (supportedPositions ls n)
  = length (filter (fun l => supported (Cond_Type l)) ls).
Proof.
  unfold supportedPositions. rewrite length_map. revert n.
  induction ls as [| l ls IH]; intros n; simpl; [reflexivity |].
  destruct (supported (Cond_Type l)); simpl; now rewrite IH.
Qed.

Lemma filter_length_le {A : Type} (f : A -> bool) (l : list A) :
  (length (filter f l) <= length l)%nat.
Proof.
  induction l as [| a l IH]; simpl; [lia |]. destruct (f a); simpl; lia.
Qed.

Lemma filter_length_all {A : Type} (f : A -> bool) (l : list A) :
  length (filter f l) = length l <-> Forall (fun a => f a = true) l.
Proof.
  induction l as [| a l IH]; simpl.
  - split; [constructor | reflexivity].
  - pose proof (filter_length_le f l) as Hle. destruct (f a) eqn:Ha; simpl.
    + split.
      * intros H. constructor; [exact Ha | apply IH; lia].
      * intros H. inversion H; subst. f_equal. now apply IH.
    + split; [lia |]. intros H. inversion H; subst. congruence.
Qed.

(** X3.  A fragment has one placeholder per supported leaf and the value
    list one entry per leaf of any kind: the text and the bound values agree
    in number exactly when every leaf of the tree is of a supported kind. *)
Theorem placeholders_match_values_iff (T : Cond) (n : Z) :
  cleanNames T ->
  0 <= n ->
  n + Z.of_nat (length (leavesOf T)) <= GoInt.int_max ->
  length (placeholders (fst (fst (parseCondSt T n))))
  = length (filter (fun l => supported (Cond_Type l)) (leavesOf T))
  /\ length (snd (fst (parseCondSt T n))) = length (leavesOf T)
  /\ (length (placeholders (fst (fst (parseCondSt T n))))
      = length (snd (fst (parseCondSt T n)))
      <-> allSupported T).
Proof.
  intros Hcl Hn Hb.
  rewrite (parseCondSt_reads_back T n Hcl Hn Hb), supportedPositions_length.
  assert (Hv : snd (fst (parseCondSt T n)) = map leafValue (leavesOf T)).
  { destruct T as [x |]; [apply node_values | reflexivity]. }
  rewrite Hv, length_map.
  split; [reflexivity |]. split; [reflexivity |].
  apply filter_length_all.
Qed.

Lemma placeholders_match_values_iff_witness :
  length (placeholders
            (fst (fst (parseCondSt (And [Eq age VNil; unsupportedLeaf]) 1))))
  = 1%nat
  /\ length (snd (fst (parseCondSt (And [Eq age VNil; unsupportedLeaf]) 1)))
     = 2%nat.
Proof.
  assert (Hcl : cleanNames (And [Eq age VNil; unsupportedLeaf]))
    by (repeat constructor).
  assert (Hb : 1 + Z.of_nat (length (leavesOf (And [Eq age VNil; unsupportedLeaf])))
               <= GoInt.int_max) by (vm_compute; discriminate).
  assert (Hn : 0 <= 1) by lia.
  destruct (placeholders_match_values_iff _ 1 Hcl Hn Hb) as (H1 & H2 & _).
  split; [exact H1 | exact H2].
Defined.

(** ** Parentheses *)

Lemma countChar_app (c : ascii) (a b : string) :
  countChar c (a ++ b) = (countChar c a + countChar c b)%nat.
Proof.
  induction a as [| x a IH]; simpl; [reflexivity |]. rewrite IH. lia.
Qed.

Lemma balanced_app (a b : string) :
  balanced a -> balanced b -> balanced (a ++ b).
Proof. unfold balanced. intros Ha Hb. rewrite !countChar_app. lia. Qed.

Lemma uint_parenFree (d : Decimal.uint) :
  parenFree (NilEmpty.string_of_uint d).
Proof. induction d; simpl; try assumption; now split. Qed.

Lemma Itoa_parenFree (z : Z) : parenFree (strconv.Itoa z).
Proof.
  unfold strconv.Itoa. destruct (Z.to_int z) as [d | d]; simpl.
  - apply uint_parenFree.
  - destruct (uint_parenFree d) as [H1 H2]. split; simpl; assumption.
Qed.

Lemma leafText_balanced (l : CondNode) (pos : Z) :
  parenFree (Prop_Name (Cond_Prop l)) -> balanced (leafText l pos).
Proof.
  intros [H1 H2]. destruct (Itoa_parenFree pos) as [I1 I2].
  unfold balanced, leafText. rewrite !countChar_app, H1, H2, I1, I2.
  destruct (Cond_Type l); reflexivity.
Qed.

Lemma balanced_separator (t : CondType) : balanced (separator t).
Proof. destruct t; reflexivity. Qed.

Lemma children_balanced (sep : string) (children : list Cond) :
  balanced sep ->
  Forall (onChild nodeBalanced) children ->
  forall n,
    Forall (fun l => parenFree (Prop_Name (Cond_Prop l)))
           (flat_map leavesOf children) ->
    balanced (strings.Join (fst (fst (compileChildren children n))) sep).
Proof.
  intros Hsep H. induction H as [| child rest Hc _ IH]; intros n Hpf.
  - reflexivity.
  - simpl flat_map in Hpf. apply Forall_app in Hpf. destruct Hpf as [Hp1 Hp2].
    rewrite compileChildren_cons.
    assert (Hb : balanced (fst (fst (parseCondSt child n)))).
    { destruct child as [x |]; [now apply Hc | reflexivity]. }
    destruct (parseCondSt child n) as [[c v] n1]. simpl in Hb.
    specialize (IH n1 Hp2).
    destruct (compileChildren rest n1) as [[cl vl] n2]. simpl in *.
    unfold strings.Join in *. simpl String.concat.
    destruct cl as [| c' cl']; [exact Hb |].
    apply balanced_app; [exact Hb |]. now apply balanced_app.
Qed.

Lemma node_balanced (c : CondNode) : nodeBalanced c.
Proof.
  induction c as [t p v children IH] using CondNode_nested_ind.
  intros n Hpf. rewrite leaves_eq in Hpf. rewrite parseCondNode_eq.
  destruct (isCombinator t) eqn:Ht.
  - pose proof (children_balanced (separator t) children
                  (balanced_separator t) IH n Hpf) as Hb.
    unfold parseCondChildren, parseCondChildrenWith. fold compileChildren.
    destruct (compileChildren children n) as [[cl vl] n']. simpl in Hb.
    destruct vl; [reflexivity |]. simpl fst.
    unfold balanced in *. cbn [countChar]. rewrite !countChar_app, Hb.
    simpl. lia.
  - inversion Hpf as [| l ls Hname _]; subst.
    destruct (supported t) eqn:Hs.
    + rewrite parseRegularCond_text by exact Hs. simpl fst.
      now apply leafText_balanced.
    + unfold parseRegularCond. simpl Cond_Type.
      destruct t; try discriminate; reflexivity.
Qed.

(** X4.  When no property name contains a parenthesis, every compiled
    fragment has as many opening as closing parentheses, whatever the shape
    of the tree, the kinds of its leaves and the counter. *)
Theorem parseCond_balanced (T : Cond) (ptr : option Z) :
  Forall (fun l => parenFree (Prop_Name (Cond_Prop l))) (leavesOf T) ->
  balanced (fst (parseCond T ptr)).
Proof.
  intros Hpf. destruct T as [x |]; [| reflexivity].
  unfold parseCond. now apply node_balanced.
Qed.

Lemma parseCond_balanced_witness :
  countChar "(" (fst (parseCond exampleCond None))
  = countChar ")" (fst (parseCond exampleCond None)).
Proof.
  apply (parseCond_balanced exampleCond None).
  repeat constructor.
Defined.

(** ** Statements: the text against the bound values *)

Lemma positions_app (n : Z) (a b : nat) :
  positions n (a + b)
  = (positions n a ++ positions (n + Z.of_nat a) b)%list.
Proof.
  revert n. induction a as [| a IH]; intros n.
  - simpl. now rewrite Z.add_0_r.
  - change (Datatypes.S a + b)%nat with (Datatypes.S (a + b)).
    rewrite !positions_cons, IH. simpl. do 3 f_equal. lia.
Qed.

Lemma uint_noDollar_int (z : Z) : noDollar (strconv.Itoa z).
Proof.
  unfold noDollar, strconv.Itoa. destruct (Z.to_int z) as [d | d]; simpl;
    apply uint_no_dollar.
Qed.

Lemma noDollar_app (a b : string) :
  noDollar a -> noDollar b -> noDollar (a ++ b).
Proof. unfold noDollar. intros Ha Hb. now rewrite hasChar_app, Ha, Hb. Qed.

Lemma Join_noDollar (l : list string) (sep : string) :
  noDollar sep -> Forall noDollar l -> noDollar (strings.Join l sep).
Proof.
  intros Hsep H. unfold strings.Join.
  induction H as [| a l Ha Hl IH]; [reflexivity |].
  simpl. destruct l as [| b l]; [exact Ha |].
  apply noDollar_app; [exact Ha |]. now apply noDollar_app.
Qed.

Lemma placeholders_whereClause (w rest : string) :
  placeholders (whereClause w ++ rest) = placeholders (w ++ rest).
Proof.
  unfold whereClause. destruct (String.eqb_spec w "") as [-> | _];
    reflexivity.
Qed.

Lemma noDigitStart_whereClause (w : string) :
  noDigitStart (whereClause w) = true.
Proof. unfold whereClause. now destruct (String.eqb w ""). Qed.

Lemma parseCondSt_reads_back_rest (c : Cond) (n : Z) (rest : string) :
  cleanNames c -> 0 <= n ->
  n + Z.of_nat (length (leavesOf c)) <= GoInt.int_max ->
  noDigitStart rest = true ->
  placeholders (fst (fst (parseCondSt c n)) ++ rest)
  = (supportedPositions (leavesOf c) n ++ placeholders rest)%list.
Proof.
  intros Hcl Hn Hb Hrest. destruct c as [x |]; [| reflexivity].
  rewrite parseCondSt_Some. now apply node_reads_back.
Qed.

(** The WHERE clause of a condition with supported leaves, followed by
    [rest], and the values bound with it. *)
Lemma where_reads_back (T : Cond) (ptr : option Z) (rest : string) :
  let n := match ptr with Some v => v | None => newN end in
  allSupported T -> cleanNames T -> 0 <= n ->
  n + Z.of_nat (length (leavesOf T)) <= GoInt.int_max ->
  noDigitStart rest = true ->
  placeholders (whereClause (fst (parseCond T ptr)) ++ rest)
  = (positions n (length (leavesOf T)) ++ placeholders rest)%list
  /\ snd (parseCond T ptr) = map Cond_Val (leavesOf T).
Proof.
  intros n Hs Hcl Hn Hb Hrest. split.
  - rewrite placeholders_whereClause, parseCond_St. fold n.
    rewrite parseCondSt_reads_back_rest by assumption.
    now rewrite supportedPositions_all.
  - rewrite parseCond_St, <- (leafValue_all _ Hs).
    destruct T as [x |]; [apply node_values | reflexivity].
Qed.

Lemma buildWhere_text (T : Cond) (ptr : option Z) (query : string)
    (queryValues : list fmt.arg) (base : string) :
  fmt.Sprintf query queryValues = base ->
  (forall w, fmt.Sprintf (query ++ " WHERE %s") (queryValues ++ [fmt.S w])%list
             = base ++ " WHERE " ++ w) ->
  buildWhere T query ptr queryValues
  = (base ++ whereClause (fst (parseCond T ptr)), snd (parseCond T ptr)).
Proof.
  intros H0 H1. rewrite buildWhere_eq, H0, H1. unfold whereClause.
  destruct (String.eqb (fst (parseCond T ptr)) ""); [| reflexivity].
  now rewrite append_nil_r.
Qed.

Lemma DeleteStatement_text (store : Store) (T : Cond) :
  DeleteStatement store T
  = (("DELETE FROM " ++ Store_Name store) ++ whereClause (fst (parseCond T None)),
     snd (parseCond T None)).
Proof.
  unfold DeleteStatement. apply buildWhere_text.
  - simpl. now rewrite append_nil_r.
  - intros w. simpl. now rewrite ?append_assoc, ?append_nil_r.
Qed.

Lemma CountStatement_text (store : Store) (T : Cond) :
  CountStatement store T
  = (("SELECT COUNT(" ++ Prop_Name (Store_Pk store) ++ ") AS cnt FROM "
      ++ Store_Name store) ++ whereClause (fst (parseCond T None)),
     snd (parseCond T None)).
Proof.
  unfold CountStatement. apply buildWhere_text.
  - simpl. now rewrite append_nil_r.
  - intros w. simpl. now rewrite ?append_assoc, ?append_nil_r.
Qed.

Lemma aligned_where (T : Cond) (base tail : string) :
  noDollar base -> noDollar tail -> noDigitStart tail = true ->
  allSupported T -> cleanNames T -> leafCount T < GoInt.int_max ->
  aligned (base ++ whereClause (fst (parseCond T None)) ++ tail,
           snd (parseCond T None)).
Proof.
  intros Hbase Htail Hnd Hs Hcl Hb. unfold leafCount in Hb.
  destruct (where_reads_back T None tail Hs Hcl) as [Hp Hv];
    [unfold newN; lia | unfold newN; lia | exact Hnd |].
  unfold aligned. simpl fst. simpl snd.
  rewrite placeholders_skip by exact Hbase.
  rewrite Hp, Hv, length_map.
  replace (placeholders tail) with (@nil Z).
  - now rewrite app_nil_r.
  - rewrite <- (append_nil_r tail). now rewrite placeholders_skip.
Qed.

(** X5.  For a condition with supported leaves (and names without [$]),
    [Delete] hands the engine a statement whose placeholders are 1, ..., k
    in this order, k being the number of bound values, which are the values
    of the leaves; the text is [DELETE FROM <table>] followed by the WHERE
    clause, if there is one. *)
Theorem Delete_aligned (store : Store) (T : Cond) :
  noDollar (Store_Name store) ->
  allSupported T -> cleanNames T -> leafCount T < GoInt.int_max ->
  aligned (DeleteStatement store T)
  /\ snd (DeleteStatement store T) = map Cond_Val (leavesOf T)
  /\ fst (DeleteStatement store T)
     = "DELETE FROM " ++ Store_Name store
       ++ whereClause (fst (parseCond T None)).
Proof.
  intros Hn Hs Hcl Hb. rewrite DeleteStatement_text.
  pose proof (aligned_where T ("DELETE FROM " ++ Store_Name store) ""
                (noDollar_app "DELETE FROM " _ eq_refl Hn) eq_refl eq_refl
                Hs Hcl Hb) as Ha.
  rewrite append_nil_r in Ha.
  split; [exact Ha |]. split.
  - simpl snd. unfold leafCount in Hb.
    apply (where_reads_back T None "" Hs Hcl); unfold newN; try lia.
    reflexivity.
  - simpl fst. now rewrite ?append_assoc.
Qed.

Lemma Delete_aligned_witness :
  placeholders (fst (DeleteStatement users exampleCond)) = [1; 2; 3]
  /\ snd (DeleteStatement users exampleCond)
     = [VSigned WInt 30; VString "NY"; VString "LA"].
Proof.
  assert (Hs : allSupported exampleCond) by (repeat constructor).
  assert (Hcl : cleanNames exampleCond) by (repeat constructor).
  assert (Hb : leafCount exampleCond < GoInt.int_max) by reflexivity.
  destruct (Delete_aligned users exampleCond eq_refl Hs Hcl Hb)
    as (H1 & H2 & _).
  split; [exact H1 | exact H2].
Defined.

(** X6.  For a condition with supported leaves (and names without [$]),
    [Count] hands the engine [SELECT COUNT(<pk>) AS cnt FROM <table>]
    followed by the WHERE clause, if there is one; its placeholders are
    1, ..., k in this order, k being the number of bound values. *)
Theorem Count_aligned (store : Store) (T : Cond) :
  storeClean store ->
  allSupported T -> cleanNames T -> leafCount T < GoInt.int_max ->
  aligned (CountStatement store T)
  /\ snd (CountStatement store T) = map Cond_Val (leavesOf T)
  /\ fst (CountStatement store T)
     = "SELECT COUNT(" ++ Prop_Name (Store_Pk store) ++ ") AS cnt FROM "
       ++ Store_Name store ++ whereClause (fst (parseCond T None)).
Proof.
  intros (Hn & Hpk & _) Hs Hcl Hb. rewrite CountStatement_text.
  assert (Hbase : noDollar ("SELECT COUNT(" ++ Prop_Name (Store_Pk store)
                            ++ ") AS cnt FROM " ++ Store_Name store)).
  { apply (noDollar_app "SELECT COUNT("); [reflexivity |].
    apply noDollar_app; [exact Hpk |].
    now apply (noDollar_app ") AS cnt FROM "). }
  pose proof (aligned_where T _ "" Hbase eq_refl eq_refl Hs Hcl Hb) as Ha.
  rewrite append_nil_r in Ha.
  split; [exact Ha |]. split.
  - simpl snd. unfold leafCount in Hb.
    apply (where_reads_back T None "" Hs Hcl); unfold newN; try lia.
    reflexivity.
  - simpl fst. now rewrite ?append_assoc.
Qed.

Lemma Count_aligned_witness :
  CountStatement users exampleCond
  = ("SELECT COUNT(id) AS cnt FROM users"
     ++ " WHERE (age = $1 AND (city = $2 OR city = $3))",
     [VSigned WInt 30; VString "NY"; VString "LA"])
  /\ placeholders (fst (CountStatement users exampleCond)) = [1; 2; 3].
Proof.
  assert (Hst : storeClean users) by (repeat constructor).
  assert (Hs : allSupported exampleCond) by (repeat constructor).
  assert (Hcl : cleanNames exampleCond) by (repeat constructor).
  assert (Hb : leafCount exampleCond < GoInt.int_max) by reflexivity.
  destruct (Count_aligned users exampleCond Hst Hs Hcl Hb) as (H1 & _ & _).
  split; [reflexivity | exact H1].
Defined.

Lemma FindStatement_text (store : Store) (T : Cond) (limit offset : Z) :
  FindStatement store T limit offset
  = Some ((("SELECT " ++ strings.Join (map Prop_Name (Store_Props store)) ", "
            ++ " FROM " ++ Store_Name store)
           ++ whereClause (fst (parseCond T None)))
          ++ (if (0 <? limit)%Z
              then " LIMIT " ++ strconv.Itoa limit ++ " OFFSET "
                   ++ strconv.Itoa offset
              else ""),
          snd (parseCond T None)).
Proof.
  unfold FindStatement. rewrite buildQueryProperties_all.
  rewrite (buildWhere_text T None _ _
             ("SELECT " ++ strings.Join (map Prop_Name (Store_Props store)) ", "
              ++ " FROM " ++ Store_Name store)).
  - destruct (0 <? limit)%Z; simpl; now rewrite append_nil_r.
  - simpl. now rewrite append_nil_r.
  - intros w. simpl. now rewrite ?append_assoc, ?append_nil_r.
Qed.

(** X7.  For a condition with supported leaves (and names without [$]),
    [Find] always builds a statement; with or without the LIMIT and OFFSET
    it appends, and for every limit and offset, negative ones included, the
    placeholders of the text are 1, ..., k in this order, k being the number
    of bound values, which are the values of the leaves. *)
Theorem Find_aligned (store : Store) (T : Cond) (limit offset : Z) :
  storeClean store ->
  allSupported T -> cleanNames T -> leafCount T < GoInt.int_max ->
  exists st,
    FindStatement store T limit offset = Some st
    /\ aligned st
    /\ snd st = map Cond_Val (leavesOf T).
Proof.
  intros (Hn & _ & Hps) Hs Hcl Hb.
  rewrite FindStatement_text. eexists. split; [reflexivity |].
  set (tail := if (0 <? limit)%Z
               then " LIMIT " ++ strconv.Itoa limit ++ " OFFSET "
                    ++ strconv.Itoa offset
               else "").
  assert (Htail : noDollar tail).
  { subst tail. destruct (0 <? limit)%Z; [| reflexivity].
    apply (noDollar_app " LIMIT "); [reflexivity |].
    apply noDollar_app; [apply uint_noDollar_int |].
    apply (noDollar_app " OFFSET "); [reflexivity | apply uint_noDollar_int]. }
  assert (Hnd : noDigitStart tail = true)
    by (subst tail; now destruct (0 <? limit)%Z).
  assert (Hbase : noDollar ("SELECT "
                            ++ strings.Join (map Prop_Name (Store_Props store)) ", "
                            ++ " FROM " ++ Store_Name store)).
  { apply (noDollar_app "SELECT "); [reflexivity |].
    apply noDollar_app.
    - apply Join_noDollar; [reflexivity |].
      apply Forall_map. exact Hps.
    - now apply (noDollar_app " FROM "). }
  split.
  - rewrite append_assoc. now apply aligned_where.
  - simpl snd. unfold leafCount in Hb.
    apply (where_reads_back T None "" Hs Hcl); unfold newN; try lia.
    reflexivity.
Qed.

Lemma Find_aligned_witness :
  exists st,
    FindStatement users exampleCond 2 (-4) = Some st
    /\ placeholders (fst st) = [1; 2; 3]
    /\ snd st = [VSigned WInt 30; VString "NY"; VString "LA"].
Proof.
  assert (Hst : storeClean users) by (repeat constructor).
  assert (Hs : allSupported exampleCond) by (repeat constructor).
  assert (Hcl : cleanNames exampleCond) by (repeat constructor).
  assert (Hb : leafCount exampleCond < GoInt.int_max) by reflexivity.
  destruct (Find_aligned users exampleCond 2 (-4) Hst Hs Hcl Hb)
    as (st & H0 & H1 & H2).
  exists st. split; [exact H0 |]. split; [| exact H2].
  rewrite H1, H2. reflexivity.
Defined.

Lemma whereClause_nonempty (w : string) :
  w <> "" -> whereClause w = " WHERE " ++ w.
Proof.
  intros H. unfold whereClause. apply String.eqb_neq in H. now rewrite H.
Qed.

(** X8.  [Populate] never fails to build its statement, whatever the
    record: it selects every property of the record, in order, from the
    record's table, always with the WHERE clause [<pk> = $1], and binds the
    key it was given as the one value. *)
Theorem Populate_statement (model : Model) (pk : GoValue) :
  PopulateStatement model pk
  = Some ("SELECT " ++ strings.Join (map Prop_Name (OrmProps model)) ", "
          ++ " FROM " ++ Store_Name (OrmStore model)
          ++ " WHERE " ++ Prop_Name (OrmPkProp model) ++ " = $1",
          [pk]).
Proof.
  unfold PopulateStatement. rewrite buildQueryProperties_all.
  rewrite (buildWhere_text _ None _ _
             ("SELECT " ++ strings.Join (map Prop_Name (OrmProps model)) ", "
              ++ " FROM " ++ Store_Name (OrmStore model))).
  - assert (E : parseCond (Eq (OrmPkProp model) pk) None
                = (Prop_Name (OrmPkProp model) ++ " = $1", [pk]))
      by reflexivity.
    rewrite E. simpl fst. simpl snd.
    rewrite whereClause_nonempty by apply append_cons_nonempty.
    now rewrite !append_assoc.
  - simpl. now rewrite append_nil_r.
  - intros w. simpl. now rewrite ?append_assoc, ?append_nil_r.
Qed.

(** ** The SET clause and the INSERT placeholders *)

Lemma placeholders_assignments (values : list Val) :
  Forall (fun v => noDollar (Prop_Name (Val_Prop v))) values ->
  forall first rest,
    0 <= first -> noDigitStart rest = true ->
    placeholders (strings.Join (assignments values first) ", " ++ rest)
    = (positions first (length values) ++ placeholders rest)%list.
Proof.
  unfold strings.Join.
  induction 1 as [| v vs Hv Hvs IH]; intros first rest Hf Hrest.
  - reflexivity.
  - simpl length. rewrite positions_cons. cbn [assignments String.concat].
    destruct vs as [| v' vs'].
    + cbn [assignments]. rewrite !append_assoc.
      rewrite placeholders_skip by exact Hv.
      change (" = $" ++ strconv.Itoa first ++ rest)
        with (" = " ++ "$" ++ strconv.Itoa first ++ rest).
      rewrite (placeholders_skip " = ") by reflexivity.
      now rewrite placeholders_token.
    + remember (assignments (v' :: vs') (first + 1)) as tl eqn:Etl.
      destruct tl as [| a tl']; [discriminate |].
      rewrite !append_assoc.
      rewrite placeholders_skip by exact Hv.
      change (" = $" ++ strconv.Itoa first ++ ", "
              ++ String.concat ", " (a :: tl') ++ rest)
        with (" = " ++ "$" ++ strconv.Itoa first ++ ", "
              ++ String.concat ", " (a :: tl') ++ rest).
      rewrite (placeholders_skip " = ") by reflexivity.
      rewrite placeholders_token by (try reflexivity; exact Hf).
      cbn [app]. f_equal.
      rewrite (placeholders_skip ", ") by reflexivity.
      rewrite Etl. apply IH; [lia | exact Hrest].
Qed.

(** X9.  For one assignment at least, [buildUpdateProps] writes the SET
    clause with the placeholders 1, ..., j in call order, returns the
    assigned values in the same order, and returns the counter [j + 1]. *)
Theorem buildUpdateProps_set (values : list Val) :
  values <> [] ->
  Forall (fun v => noDollar (Prop_Name (Val_Prop v))) values ->
  fst (fst (buildUpdateProps values)) = Z.of_nat (length values) + 1
  /\ snd (buildUpdateProps values) = map Val_Val values
  /\ placeholders (snd (fst (buildUpdateProps values)))
     = positions 1 (length values)
  /\ length (assignments values 1) = length values.
Proof.
  intros Hne Hcl. rewrite buildUpdateProps_eq. simpl fst. simpl snd.
  split; [now destruct values |]. split; [reflexivity |]. split.
  - pose proof (placeholders_assignments values Hcl 1 "") as H.
    rewrite append_nil_r, app_nil_r in H. apply H; [lia | reflexivity].
  - clear. generalize 1. induction values as [| v vs IH]; intros f;
      simpl; [reflexivity | now rewrite IH].
Qed.

Lemma buildUpdateProps_set_witness :
  buildUpdateProps [mkVal name (VString "Bob"); mkVal age (VSigned WInt 3)]
  = (3, "name = $1, age = $2", [VString "Bob"; VSigned WInt 3])
  /\ placeholders "name = $1, age = $2" = [1; 2].
Proof.
  assert (Hne : [mkVal name (VString "Bob"); mkVal age (VSigned WInt 3)] <> [])
    by discriminate.
  assert (Hcl : Forall (fun v => noDollar (Prop_Name (Val_Prop v)))
                  [mkVal name (VString "Bob"); mkVal age (VSigned WInt 3)])
    by (repeat constructor).
  destruct (buildUpdateProps_set _ Hne Hcl) as (_ & _ & H3 & _).
  split; [reflexivity | exact H3].
Defined.

(** X10.  For one assignment at least and a condition with supported leaves
    (names without [$]), the statement of [Update] binds the assigned values
    followed by the values of the leaves, [j + k] values, and the
    placeholders of its text, SET clause and WHERE clause together, are
    1, ..., j + k in this order. *)
Theorem Update_aligned (store : Store) (T : Cond) (values : list Val) :
  values <> [] ->
  noDollar (Store_Name store) ->
  Forall (fun v => noDollar (Prop_Name (Val_Prop v))) values ->
  allSupported T -> cleanNames T ->
  Z.of_nat (length values) + leafCount T < GoInt.int_max ->
  aligned (UpdateStatement store T values)
  /\ snd (UpdateStatement store T values)
     = (map Val_Val values ++ map Cond_Val (leavesOf T))%list
  /\ length (snd (UpdateStatement store T values))
     = (length values + length (leavesOf T))%nat.
Proof.
  intros Hne Hn Hv Hs Hcl Hb.
  destruct (UpdateStatement_some_assignments store T values Hne Hs Hb)
    as [E Hp].
  specialize (Hp Hcl). rewrite E. cbn [snd].
  split; [| split; [reflexivity | now rewrite length_app, !length_map]].
  unfold aligned. cbn [fst snd].
  rewrite length_app, !length_map, positions_app.
  rewrite (placeholders_skip "UPDATE ") by reflexivity.
  rewrite placeholders_skip by exact Hn.
  rewrite (placeholders_skip " SET ") by reflexivity.
  set (w := fst (parseCond T (Some (Z.of_nat (length values) + 1)))) in *.
  fold (whereClause w).
  rewrite placeholders_assignments;
    [| exact Hv | lia | apply noDigitStart_whereClause].
  f_equal.
  rewrite <- (append_nil_r (whereClause w)), placeholders_whereClause.
  rewrite append_nil_r, Hp. f_equal. lia.
Qed.

Lemma Update_aligned_witness :
  placeholders
    (fst (UpdateStatement users exampleCond [mkVal name (VString "Bob")]))
  = [1; 2; 3; 4]
  /\ snd (UpdateStatement users exampleCond [mkVal name (VString "Bob")])
     = [VString "Bob"; VSigned WInt 30; VString "NY"; VString "LA"].
Proof.
  assert (Hne : [mkVal name (VString "Bob")] <> []) by discriminate.
  assert (Hv : Forall (fun v => noDollar (Prop_Name (Val_Prop v)))
                 [mkVal name (VString "Bob")]) by (repeat constructor).
  assert (Hs : allSupported exampleCond) by (repeat constructor).
  assert (Hcl : cleanNames exampleCond) by (repeat constructor).
  assert (Hb : Z.of_nat (length [mkVal name (VString "Bob")])
               + leafCount exampleCond < GoInt.int_max) by reflexivity.
  destruct (Update_aligned users exampleCond _ Hne eq_refl Hv Hs Hcl Hb)
    as (H1 & H2 & _).
  split; [exact H1 | exact H2].
Defined.

Lemma placeholders_one (a : nat) (rest : string) :
  noDigitStart rest = true ->
  placeholders (placeholder a ++ rest) = Z.of_nat a :: placeholders rest.
Proof.
  intros Hrest.
  change (placeholder a ++ rest)
    with ("$" ++ strconv.Itoa (Z.of_nat a) ++ rest).
  apply placeholders_token; [lia | exact Hrest].
Qed.

Lemma placeholders_insert (k : nat) :
  forall (a : nat) (rest : string),
    noDigitStart rest = true ->
    placeholders (strings.Join (map placeholder (seq a k)) ", " ++ rest)
    = (positions (Z.of_nat a) k ++ placeholders rest)%list.
Proof.
  unfold strings.Join.
  induction k as [| k IH]; intros a rest Hrest; [reflexivity |].
  rewrite positions_cons. cbn [app].
  specialize (IH (Datatypes.S a) rest Hrest).
  replace (Z.of_nat a + 1) with (Z.of_nat (Datatypes.S a)) by lia.
  rewrite <- IH. clear IH.
  destruct k as [| k'].
  - cbn [seq map String.concat]. now apply placeholders_one.
  - cbn [seq map String.concat]. rewrite !append_assoc.
    rewrite placeholders_one by reflexivity.
    f_equal.
Qed.

(** X11.  [buildInsertPlaceholders] panics on a negative count.  For the
    length of a slice it returns a text that reads back as the placeholders
    1, ..., n in this order; and whenever it returns a text, the count is
    not negative and the text reads back as 1, ..., n. *)
Theorem buildInsertPlaceholders_cases (n : Z) (vals : list GoValue) :
  (n < 0 -> buildInsertPlaceholders n = None)
  /\ (forall s, buildInsertPlaceholders n = Some s ->
                0 <= n /\ placeholders s = positions 1 (Z.to_nat n))
  /\ (exists s,
        buildInsertPlaceholders (Z.of_nat (length vals)) = Some s
        /\ placeholders s = positions 1 (length vals)).
Proof.
  assert (R : forall k, placeholders
                (strings.Join (map placeholder (seq 1 k)) ", ")
              = positions 1 k).
  { intros k. pose proof (placeholders_insert k 1 "" eq_refl) as H.
    now rewrite append_nil_r, app_nil_r in H. }
  split; [| split].
  - intros Hlt. unfold buildInsertPlaceholders, makeStrings.
    destruct (Z.ltb_spec n 0); [reflexivity | lia].
  - intros s. unfold buildInsertPlaceholders, makeStrings.
    destruct (Z.ltb_spec n 0) as [Hlt | Hge]; [discriminate |].
    intros [= <-]. split; [exact Hge | apply R].
  - rewrite buildInsertPlaceholders_nat. eexists. split; [reflexivity |].
    apply R.
Qed.

(** X12.  With every column listed, [buildQueryProperties] never panics and
    returns the property names in order.  With the primary key left out it
    panics exactly when no property is flagged as the primary key;
    otherwise it returns the names of the other properties, in order,
    followed by one empty entry for each flagged property beyond the
    first. *)
Theorem buildQueryProperties_cases (ps : list Property) :
  buildQueryProperties ps false
  = Some (strings.Join (map Prop_Name ps) ", ")
  /\ buildQueryProperties ps true
     = (if Nat.eqb (pkCount ps) 0 then None
        else Some (strings.Join
                     (map Prop_Name (filter nonPk ps)
                      ++ repeat "" (pkCount ps - 1))%list ", ")).
Proof.
  split; [apply buildQueryProperties_all |].
  destruct ps as [| p ps']; [reflexivity |].
  pose proof (filter_nonPk_length (p :: ps')) as Hl.
  pose proof (queryPropertiesLoop_spec true (p :: ps') [] (length ps')) as L.
  cbn [app] in L. change (length (@nil string)) with O in L.
  unfold buildQueryProperties.
  replace (Z.of_nat (length (p :: ps')) - 1) with (Z.of_nat (length ps'))
    by (simpl length; lia).
  rewrite makeStrings_nat, L, filter_kept_true.
  change (length (p :: ps')) with (Datatypes.S (length ps')) in Hl.
  destruct (Nat.eqb_spec (pkCount (p :: ps')) 0) as [H0 | H0];
    destruct (Nat.leb_spec (length (filter nonPk (p :: ps'))) (length ps'));
    try lia; [reflexivity |].
  do 4 f_equal. lia.
Qed.

(** X13.  For a record with one value per property and one primary key
    (names without [$]), the INSERT statement of [Put] has the placeholders
    1, ..., n in this order, n being the number of values it binds, whether
    the key is left out or not. *)
Theorem Put_aligned (m : Model) (isSerial : bool) :
  wellFormed m ->
  isPkEmpty (OrmPk m) = Some isSerial ->
  noDollar (Store_Name (OrmStore m)) ->
  Forall (fun p => noDollar (Prop_Name p)) (OrmProps m) ->
  exists st,
    PutStatement m = Some st
    /\ aligned st
    /\ length (snd st)
       = (if isSerial then length (OrmVals m) - 1 else length (OrmVals m))%nat.
Proof.
  intros Hwf Hpk Hn Hps.
  destruct (wellFormed_pk m Hwf) as (_ & Hin & _).
  assert (Hpkn : noDollar (Prop_Name (OrmPkProp m))).
  { rewrite Forall_forall in Hps. now apply Hps. }
  assert (A : forall cols k vals,
             Forall (fun p => noDollar (Prop_Name p)) cols ->
             length vals = k ->
             aligned (insertSQL m cols k, vals)).
  { intros cols k vals Hc Hk. unfold aligned, insertSQL. cbn [fst snd].
    rewrite (placeholders_skip "INSERT INTO ") by reflexivity.
    rewrite placeholders_skip by exact Hn.
    rewrite (placeholders_skip " (") by reflexivity.
    rewrite placeholders_skip
      by (apply Join_noDollar; [reflexivity | now apply Forall_map]).
    rewrite (placeholders_skip ") VALUES (") by reflexivity.
    rewrite placeholders_insert by reflexivity.
    rewrite (placeholders_skip ") RETURNING ") by reflexivity.
    rewrite <- (append_nil_r (Prop_Name (OrmPkProp m))).
    rewrite placeholders_skip by exact Hpkn.
    simpl. now rewrite app_nil_r, Hk. }
  rewrite (PutStatement_eq m isSerial Hwf Hpk).
  destruct isSerial; eexists; (split; [reflexivity |]); cbn [snd]; split.
  - apply A; [| reflexivity].
    apply Forall_forall. intros p Hp. apply filter_In in Hp.
    rewrite Forall_forall in Hps. now apply Hps.
  - destruct Hwf as [Hlen Hone _]. unfold nonPkValues.
    rewrite (serialValues_length _ _ Hlen).
    pose proof (filter_nonPk_length (OrmProps m)). lia.
  - now apply A.
  - reflexivity.
Qed.

Lemma Put_aligned_witness :
  exists st,
    PutStatement newUser = Some st
    /\ placeholders (fst st) = [1; 2]
    /\ length (snd st) = 2%nat.
Proof.
  assert (Hwf : wellFormed newUser).
  { split; [reflexivity | reflexivity |].
    intros [| [| [| i]]] p; simpl; intros H Hp; inversion H; subst;
      try discriminate; [now split | now destruct i]. }
  assert (Hps : Forall (fun p => noDollar (Prop_Name p)) (OrmProps newUser))
    by (repeat constructor).
  destruct (Put_aligned newUser true Hwf eq_refl eq_refl Hps)
    as (st & H0 & H1 & H2).
  exists st. split; [exact H0 |]. split; [| exact H2].
  rewrite H1, H2. reflexivity.
Defined.

(** ** [Put] over several records *)

Section PutRuns.

Variable error : Type.
Variable DB : Type.
Variable Q : DB -> string -> list GoValue -> DB * Row error.

(** [Put] on records the engine accepts, followed by others. *)
Lemma Put_after_inserted (db db' : DB) (done done' : list Model)
    (sts : list Statement) :
  Inserted Q db done sts done' db' ->
  forall rest,
    Put Q db (done ++ rest)%list
    = mkPutResult (put_db (Put Q db' rest))
        (done' ++ put_models (Put Q db' rest))%list
        (sts ++ put_issued (Put Q db' rest))%list
        (put_outcome (Put Q db' rest)).
Proof.
  induction 1 as [db | db db1 db2 m query values key ms ms' sts Hst HQ _ IH];
    intros rest.
  - simpl. now destruct (Put Q db rest).
  - cbn [app Put]. rewrite Hst, HQ. cbn. now rewrite IH.
Qed.

(** When [Put] returns no error, the engine accepted every record. *)
Lemma Put_success_inserted (ms : list Model) :
  forall db,
    put_outcome (Put Q db ms) = Returned None ->
    Inserted Q db ms (put_issued (Put Q db ms)) (put_models (Put Q db ms))
      (put_db (Put Q db ms)).
Proof.
  induction ms as [| m ms IH]; intros db; [constructor |].
  cbn [Put]. destruct (PutStatement m) as [[query values] |] eqn:Est;
    [| discriminate].
  destruct (Q db query values) as [db1 row] eqn:HQ.
  destruct row as [rerr rscan]. cbn.
  destruct rerr as [e |]; [discriminate |].
  destruct rscan as [e | key]; [discriminate |].
  cbn. intros Hout. econstructor; [exact Est | exact HQ | now apply IH].
Qed.

End PutRuns.

(** X14.  When the engine accepts the records [done] one after another,
    returning a key for each, [Put] on them issues exactly their
    statements, stores exactly these keys and returns no error; and only
    then does it return no error.  When the engine then answers the
    statement of the next record [m] with an error, of the row or of its
    scan, [Put] returns this error: the statement of [m] is the last one
    issued, the records before [m] keep their keys (nothing is undone), [m]
    and the records after it are left as they were.  When the statement of
    [m] cannot be built, nothing is issued for [m] either. *)
Theorem Put_stops_at_first_failure
    (error DB : Type)
    (QueryRowContext : DB -> string -> list GoValue -> DB * Row error)
    (db db' : DB) (done done' : list Model) (sts : list Statement) :
  Inserted QueryRowContext db done sts done' db' ->
  Put QueryRowContext db done = mkPutResult db' done' sts (Returned None)
  /\ (forall m rest query values db1 row e,
        PutStatement m = Some (query, values) ->
        QueryRowContext db' query values = (db1, row) ->
        Row_Err row = Some e \/ (Row_Err row = None /\ Row_Scan row = inl e) ->
        Put QueryRowContext db (done ++ m :: rest)%list
        = mkPutResult db1 (done' ++ m :: rest)%list
            (sts ++ [(query, values)])%list (Returned (Some e)))
  /\ (forall m rest,
        PutStatement m = None ->
        Put QueryRowContext db (done ++ m :: rest)%list
        = mkPutResult db' (done' ++ m :: rest)%list sts Panicked)
  /\ (forall db0 ms,
        put_outcome (Put QueryRowContext db0 ms) = Returned None ->
        Inserted QueryRowContext db0 ms
          (put_issued (Put QueryRowContext db0 ms))
          (put_models (Put QueryRowContext db0 ms))
          (put_db (Put QueryRowContext db0 ms))).
Proof.
  intros Hins.
  pose proof (Put_after_inserted error DB QueryRowContext db db' done done'
                sts Hins) as A.
  split; [| split; [| split]].
  - specialize (A []). rewrite app_nil_r in A. rewrite A. simpl.
    now rewrite !app_nil_r.
  - intros m rest query values db1 row e Hst HQ Hfail.
    rewrite A. cbn [Put]. rewrite Hst, HQ.
    destruct Hfail as [He | [He Hs]].
    + now rewrite He.
    + now rewrite He, Hs.
  - intros m rest Hst. rewrite A. cbn [Put]. rewrite Hst. cbn.
    now rewrite app_nil_r.
  - intros db0 ms. apply Put_success_inserted.
Qed.

Lemma Put_stops_at_first_failure_witness :
  Put pickyEngine tt [newUser; user7; newUser]
  = mkPutResult tt
      [scanPk newUser (VSigned W64 41); user7; newUser]
      [("INSERT INTO users (age, city) VALUES ($1, $2) RETURNING id",
        [VSigned WInt 30; VString "NY"]);
       ("INSERT INTO users (id, age, city) VALUES ($1, $2, $3) RETURNING id",
        [VSigned W64 7; VSigned WInt 30; VString "NY"])]
      (Returned (Some "duplicate key")).
Proof.
  assert (Hins : Inserted pickyEngine tt [newUser]
                   [("INSERT INTO users (age, city) VALUES ($1, $2) RETURNING id",
                     [VSigned WInt 30; VString "NY"])]
                   [scanPk newUser (VSigned W64 41)] tt).
  { eapply Inserted_cons; [reflexivity | reflexivity | constructor]. }
  destruct (Put_stops_at_first_failure string unit pickyEngine tt tt
              [newUser] _ _ Hins) as (_ & Hfail & _).
  apply (Hfail user7 [newUser] _ _ tt
           (mkRow (Some "duplicate key") (inl "no row")) "duplicate key"
           eq_refl eq_refl).
  now left.
Defined.

(** X15.  When the key of a record has a signed or unsigned integer type
    other than the 64-bit one, or the type [float32], [Put] panics at this
    record before handing anything to the engine: no statement is issued
    for it or for the records after it, and they are left as they were. *)
Theorem Put_panics_on_narrow_key
    (error DB : Type)
    (QueryRowContext : DB -> string -> list GoValue -> DB * Row error)
    (db : DB) (m : Model) (rest : list Model) :
  (exists w z, OrmPk m = VSigned w z /\ w <> W64)
  \/ (exists w z, OrmPk m = VUnsigned w z /\ w <> W64)
  \/ (exists f, OrmPk m = VFloat F32 f) ->
  PutStatement m = None
  /\ Put QueryRowContext db (m :: rest)
     = mkPutResult db (m :: rest) [] Panicked.
Proof.
  intros H. apply isPkEmpty_panics in H.
  assert (E : PutStatement m = None) by (unfold PutStatement; now rewrite H).
  split; [exact E |]. cbn [Put]. now rewrite E.
Qed.

Lemma Put_panics_on_narrow_key_witness :
  put_issued (Put engine41 tt [intKeyUser; newUser]) = []
  /\ put_outcome (Put engine41 tt [intKeyUser; newUser]) = Panicked.
Proof.
  assert (H : (exists w z, OrmPk intKeyUser = VSigned w z /\ w <> W64)
              \/ (exists w z, OrmPk intKeyUser = VUnsigned w z /\ w <> W64)
              \/ (exists f, OrmPk intKeyUser = VFloat F32 f)).
  { left. exists WInt, 0. split; [reflexivity | discriminate]. }
  destruct (Put_panics_on_narrow_key string unit engine41 tt intKeyUser
              [newUser] H) as [_ E].
  rewrite E. split; reflexivity.
Defined.

(** ** The rows of [Find] *)

Section FindRows.

Variable error : Type.
Variable RowData : Type.
Variable Store_Model : Store -> Model.
Variable Scan : RowData -> Model -> error + Model.
Variable store : Store.

Lemma scanRows_all (rows : list RowData) (ms : list Model) :
  Forall2 (fun row m => Scan row (Store_Model store) = inr m) rows ms ->
  forall l, scanRows Store_Model Scan store rows l = inr (l ++ ms)%list.
Proof.
  induction 1 as [| row m rows ms Hrow _ IH]; intros l; simpl.
  - now rewrite app_nil_r.
  - rewrite Hrow, IH. now rewrite <- app_assoc.
Qed.

Lemma scanRows_first_failure (pre : list RowData) (ms : list Model)
    (bad : RowData) (post : list RowData) (e : error) :
  Forall2 (fun row m => Scan row (Store_Model store) = inr m) pre ms ->
  Scan bad (Store_Model store) = inl e ->
  forall l, scanRows Store_Model Scan store (pre ++ bad :: post)%list l = inl e.
Proof.
  intros H Hbad. induction H as [| row m rows ms' Hrow _ IH]; intros l; simpl.
  - now rewrite Hbad.
  - rewrite Hrow. apply IH.
Qed.

End FindRows.

(** X16.  When the engine answers the statement of [Find] with rows, the
    records returned are one fresh record of the store per row, each filled
    from its row, in the order of the rows; when the scan of a row fails,
    [Find] returns the error of the first such row and no record, the rows
    before it notwithstanding. *)
Theorem Find_rows
    (error DB RowData : Type)
    (QueryContext : DB -> string -> list GoValue -> DB * (error + list RowData))
    (Store_Model : Store -> Model)
    (Scan : RowData -> Model -> error + Model)
    (db db1 : DB) (store : Store) (T : Cond) (limit offset : Z)
    (query : string) (args : list GoValue)
    (pre rest : list RowData) (ms : list Model) :
  FindStatement store T limit offset = Some (query, args) ->
  QueryContext db query args = (db1, inr (pre ++ rest)%list) ->
  Forall2 (fun row m => Scan row (Store_Model store) = inr m) pre ms ->
  (rest = [] ->
   Find QueryContext Store_Model Scan db store T limit offset
   = (db1, FindReturned (inr ms)))
  /\ (forall bad post e,
        rest = bad :: post ->
        Scan bad (Store_Model store) = inl e ->
        Find QueryContext Store_Model Scan db store T limit offset
        = (db1, FindReturned (inl e))).
Proof.
  intros Hst HQ Hpre. unfold Find. rewrite Hst, HQ. split.
  - intros ->. rewrite app_nil_r.
    now rewrite (scanRows_all error RowData Store_Model Scan store pre ms Hpre).
  - intros bad post e -> Hbad.
    now rewrite (scanRows_first_failure error RowData Store_Model Scan store
                   pre ms bad post e Hpre Hbad).
Qed.

Lemma Find_rows_witness :
  Find (rowsEngine [5; 7]) freshUser scanKey tt users None 0 0
  = (tt, FindReturned
           (inr [scanPk (freshUser users) (VSigned W64 5);
                 scanPk (freshUser users) (VSigned W64 7)]))
  /\ Find (rowsEngine [5; 0; 7]) freshUser scanKey tt users None 0 0
     = (tt, FindReturned (inl "scan")).
Proof.
  split.
  - refine (proj1 (Find_rows string unit Z (rowsEngine [5; 7]) freshUser
                     scanKey tt tt users None 0 0
                     "SELECT id, age, city FROM users" [] [5; 7] []
                     [scanPk (freshUser users) (VSigned W64 5);
                      scanPk (freshUser users) (VSigned W64 7)]
                     eq_refl eq_refl _) eq_refl).
    repeat constructor.
  - refine (proj2 (Find_rows string unit Z (rowsEngine [5; 0; 7]) freshUser
                     scanKey tt tt users None 0 0
                     "SELECT id, age, city FROM users" [] [5] [0; 7]
                     [scanPk (freshUser users) (VSigned W64 5)]
                     eq_refl eq_refl _) 0 [7] "scan" eq_refl eq_refl).
    repeat constructor.
Defined.

(** ** Compiling from any counter *)

(** X17.  Compiled with a counter holding [n >= 0], a condition with k
    supported leaves (names without [$]) has the placeholders
    n, n + 1, ..., n + k - 1 in this order, binds the values of its leaves in
    the same order and leaves the counter at [n + k], so that a second
    condition compiled with the same counter continues where the first one
    stopped. *)
Theorem parseCond_from_counter (T U : Cond) (n : Z) :
  allSupported T -> cleanNames T ->
  allSupported U -> cleanNames U ->
  0 <= n ->
  n + leafCount T + leafCount U <= GoInt.int_max ->
  placeholders (fst (parseCond T (Some n)))
  = positions n (length (leavesOf T))
  /\ snd (parseCond T (Some n)) = map Cond_Val (leavesOf T)
  /\ snd (parseCondSt T n) = n + leafCount T
  /\ placeholders (fst (parseCond U (Some (snd (parseCondSt T n)))))
     = positions (n + leafCount T) (length (leavesOf U)).
Proof.
  intros HsT HcT HsU HcU Hn Hb. unfold leafCount in *.
  assert (Hr : GoInt.in_range n) by (apply nonneg_in_range; lia).
  destruct (parseCondSt_spec T n Hr) as [E _]; [lia |].
  assert (P : forall X m, allSupported X -> cleanNames X -> 0 <= m ->
                m + Z.of_nat (length (leavesOf X)) <= GoInt.int_max ->
                placeholders (fst (parseCond X (Some m)))
                = positions m (length (leavesOf X))).
  { intros X m HsX HcX Hm HbX. rewrite parseCond_St.
    rewrite parseCondSt_reads_back by assumption.
    now apply supportedPositions_all. }
  split; [apply P; try assumption; lia |]. split.
  - rewrite parseCond_St, E. cbn [fst snd]. now apply leafValue_all.
  - rewrite E. cbn [snd]. split; [reflexivity |].
    apply P; try assumption; lia.
Qed.

Lemma parseCond_from_counter_witness :
  placeholders (fst (parseCond exampleCond (Some 5))) = [5; 6; 7]
  /\ placeholders
       (fst (parseCond (Eq age VNil) (Some (snd (parseCondSt exampleCond 5)))))
     = [8].
Proof.
  assert (HsT : allSupported exampleCond) by (repeat constructor).
  assert (HcT : cleanNames exampleCond) by (repeat constructor).
  assert (HsU : allSupported (Eq age VNil)) by (repeat constructor).
  assert (HcU : cleanNames (Eq age VNil)) by (repeat constructor).
  assert (Hn : 0 <= 5) by lia.
  assert (Hb : 5 + leafCount exampleCond + leafCount (Eq age VNil)
               <= GoInt.int_max) by (vm_compute; discriminate).
  destruct (parseCond_from_counter exampleCond (Eq age VNil) 5
              HsT HcT HsU HcU Hn Hb) as (H1 & _ & _ & H4).
  split; [exact H1 | exact H4].
Defined.
